(** * Art_Of_War: the projection / scoring engine of [app.py]

    A shallow embedding of the three functions defined on the
    "2047 Predictions" page of [src/app.py]

      - [create_strength_score]      (lines 1801-1838),
      - [analyze_growth_trajectory]  (lines 1841-1900),
      - [predict_future_ranking]     (lines 1903-1928),

    and of the driver that chains them (lines 1931-1940).

    Modelling conventions.

    - Numbers.  numpy's float64 values are idealised as exact rationals
      ([Q]); a statement "equal up to floating-point tolerance" becomes
      an equation [==] on [Q].  NaN (pandas' null) is [None] in an
      [option Q], or the constructor [CNull] of a raw cell.
    - Tables.  A pandas DataFrame is a list of rows (a record per row),
      in row order.  A column that a function adds to the frame it was
      given is returned as the new state of that frame (explicit state
      passing): Python mutates the object, the model returns its state
      after the call next to the value the call returns.
    - Exceptions.  A call that may raise returns a [result]; [try/except]
      is [catch].
    - Library calls.  [pd.to_numeric], [StandardScaler], [LinearRegression]
      and [sort_values] are modelled after their documented behaviour; the
      two functions that cannot be written on [Q] (the parser of numeric
      strings and the square root) are parameters of the development. *)

From Stdlib Require Import String QArith Qminmax ZArith Bool Arith Lia List.
From Stdlib Require Import Permutation Sorted Setoid Morphisms.
Import ListNotations.

Local Open Scope string_scope.
Local Open Scope Q_scope.

(** ** Values *)

(** A raw cell of a DataFrame column read from a CSV file: a number, a
    string (object dtype), or null (NaN / None). *)
Inductive cell : Type :=
| CNum (q : Q)
| CStr (s : string)
| CNull.

Definition is_str (c : cell) : bool :=
  match c with CStr _ => true | _ => false end.

(** [pd.isna] on a cell: what [dropna] and [np.isnan] look at. *)
Definition isna (c : cell) : bool :=
  match c with CNull => true | _ => false end.

(** The Python exceptions the modelled calls can raise. *)
Inductive exn : Type :=
| ValueError
| TypeError.

Inductive result (A : Type) : Type :=
| Ok (a : A)
| Raise (e : exn).

Arguments Ok {A} a.
Arguments Raise {A} e.

Definition bind {A B : Type} (r : result A) (k : A -> result B) : result B :=
  match r with
  | Ok a => k a
  | Raise e => Raise e
  end.

(** [try: r  except Exception: d] *)
Definition catch {A : Type} (r : result A) (d : A) : A :=
  match r with
  | Ok a => a
  | Raise _ => d
  end.

Notation "x <- r ;; k" := (bind r (fun x => k))
  (at level 61, r at next level, right associativity).

(** ** Arithmetic on columns *)

Definition Qsum (l : list Q) : Q := fold_right Qplus 0 l.

Definition Qlen {A : Type} (l : list A) : Q := inject_Z (Z.of_nat (length l)).

(** [np.mean] *)
Definition mean (l : list Q) : Q := Qsum l / Qlen l.

(** [np.var] with [ddof = 0]: the population variance, dividing by N. *)
Definition var (l : list Q) : Q :=
  Qsum (map (fun x => (x - mean l) * (x - mean l)) l) / Qlen l.

Definition Qltb (a b : Q) : bool := negb (Qle_bool b a).

(** ** [sort_values(key, ascending=False)]

    Rows are ordered by decreasing key, rows whose key is NaN last
    ([na_position='last']).  pandas' default sort is numpy's quicksort,
    which promises nothing about the relative order of rows with equal
    keys; the insertion sort below keeps them in their original order,
    and the results proved about it use only that its output is ordered
    and is a rearrangement of its input. *)

Definition key_geb (a b : option Q) : bool :=
  match a, b with
  | Some x, Some y => Qle_bool y x
  | _, None => true
  | None, Some _ => false
  end.

Section Sorting.
Context {A : Type} (key : A -> option Q).

Fixpoint insert_desc (x : A) (l : list A) : list A :=
  match l with
  | [] => [x]
  | y :: l' =>
      if key_geb (key x) (key y) then x :: l else y :: insert_desc x l'
  end.

Definition sort_values_desc (l : list A) : list A :=
  fold_right insert_desc [] l.

(** [a] may stand before [b] in a frame sorted by decreasing key. *)
Definition before (a b : A) : Prop := key_geb (key a) (key b) = true.

End Sorting.

(** ** The source tables *)

(** One row of [military_strength] (2024_military_strength_by_country.csv):
    the columns the engine reads.  The seven indicator columns are raw
    cells, since the scorer itself coerces them; [pwr_index] is a float
    column, null when missing; [country_code] is null when missing. *)
Record CountryRecord : Type := {
  country : string;
  country_code : option string;
  pwr_index : option Q;
  total_national_populations : cell;
  active_service_military_manpower : cell;
  total_military_aircraft_strength : cell;
  total_combat_tank_strength : cell;
  navy_strength : cell;
  national_annual_defense_budgets : cell;
  purchasing_power_parities : cell
}.

Definition CountryTable : Type := list CountryRecord.

(** [df[power_columns]] on one row, in the order of the list
    [power_columns] of the source. *)
Definition power_columns (r : CountryRecord) : list cell :=
  [ total_national_populations r;
    active_service_military_manpower r;
    total_military_aircraft_strength r;
    total_combat_tank_strength r;
    navy_strength r;
    national_annual_defense_budgets r;
    purchasing_power_parities r ].

(** [defense_budget] (Defence_budget_cleaned.csv): the year columns the
    frame has, as year numbers (the label is [str(year)]), and one row per
    country code with a cell for each year column, in column order. *)
Record BudgetRow : Type := {
  budget_code : option string;
  year_values : list cell
}.

Record BudgetTable : Type := {
  year_columns : list Z;
  budget_rows : list BudgetRow
}.

(** ** The derived tables *)

(** One row of the frame [scaled_df] built by [create_strength_score]:
    the seven standardized columns, then the three columns added to it. *)
Record ScoreRow : Type := {
  scaled : list Q;
  strength_score : Q;
  sr_country : string;
  sr_pwr_index : option Q
}.

(** The same frame after [analyze_growth_trajectory] has added its two
    columns to it. *)
Record GrowthRow : Type := {
  base : ScoreRow;
  growth_score : Q;
  growth_score_normalized : Q
}.

(** The frame [predict_future_ranking] is given and the one it returns:
    the rows, and the column [projection_score] when the frame has it. *)
Record Frame : Type := {
  rows : list GrowthRow;
  projection_score : option (list (option Q))
}.

(** ** The engine, parametric in the two library functions that
       are not rational *)

Section Engine.

(** The parser behind [pd.to_numeric] for a string cell: the number the
    string denotes, or [None] when it denotes none. *)
Variable parse_numeric : string -> option Q.

(** [np.sqrt]. *)
Variable sqrt : Q -> Q.

(** *** Dataset Normalizer: [pd.to_numeric(_, errors='coerce')] *)

Definition to_numeric (c : cell) : cell :=
  match c with
  | CNum q => CNum q
  | CStr s => match parse_numeric s with Some q => CNum q | None => CNull end
  | CNull => CNull
  end.

(** The loop [for col in power_columns: df[col] = pd.to_numeric(df[col],
    errors='coerce')], seen from one row. *)
Definition coerce_record (r : CountryRecord) : CountryRecord :=
  {| country := country r;
     country_code := country_code r;
     pwr_index := pwr_index r;
     total_national_populations := to_numeric (total_national_populations r);
     active_service_military_manpower :=
       to_numeric (active_service_military_manpower r);
     total_military_aircraft_strength :=
       to_numeric (total_military_aircraft_strength r);
     total_combat_tank_strength := to_numeric (total_combat_tank_strength r);
     navy_strength := to_numeric (navy_strength r);
     national_annual_defense_budgets :=
       to_numeric (national_annual_defense_budgets r);
     purchasing_power_parities := to_numeric (purchasing_power_parities r) |}.

(** *** Strength Scorer *)

(** [df.dropna(subset=power_columns)] keeps the rows with no null in the
    seven columns. *)
Definition complete (r : CountryRecord) : bool :=
  forallb (fun c => negb (isna c)) (power_columns r).

Definition dropna (df : CountryTable) : CountryTable := filter complete df.

(** The float matrix scikit-learn makes of [df_clean[power_columns]].
    A string cannot be converted and raises [ValueError].  A null cannot
    reach this point, [dropna] having removed its row ([to_matrix_clean]
    below); the scaler would carry a NaN along, which is not modelled, and
    the case is closed with the same exception. *)
Definition cell_float (c : cell) : result Q :=
  match c with
  | CNum q => Ok q
  | _ => Raise ValueError
  end.

Fixpoint traverse {A B : Type} (f : A -> result B) (l : list A)
  : result (list B) :=
  match l with
  | [] => Ok []
  | a :: l' => b <- f a ;; bs <- traverse f l' ;; Ok (b :: bs)
  end.

Definition to_matrix (df : CountryTable) : result (list (list Q)) :=
  traverse (fun r => traverse cell_float (power_columns r)) df.

(** Column [j] of a matrix. *)
Definition column (j : nat) (X : list (list Q)) : list Q :=
  map (fun row => nth j row 0) X.

(** [StandardScaler.scale_] of a column: the square root of its
    population variance, and 1 for a column of variance 0 (scikit-learn
    leaves a constant feature as it is, "giving a scaling factor of 1"). *)
Definition scale_ (col : list Q) : Q :=
  if Qeq_bool (var col) 0 then 1 else sqrt (var col).

(** [StandardScaler.transform] on the value [x] of a row in column [col]. *)
Definition standardize (col : list Q) (x : Q) : Q :=
  (x - mean col) / scale_ col.

Definition transform_row (X : list (list Q)) (row : list Q) : list Q :=
  map (fun jx => standardize (column (fst jx) X) (snd jx))
      (combine (seq 0 (length row)) row).

(** [StandardScaler().fit_transform(X)]: [check_array] refuses a matrix
    with no row ("Found array with 0 sample(s) ... while a minimum of 1 is
    required by StandardScaler"). *)
Definition fit_transform (X : list (list Q)) : result (list (list Q)) :=
  match X with
  | [] => Raise ValueError
  | _ => Ok (map (transform_row X) X)
  end.

(** [scaled_df.mean(axis=1)], then the columns [country] and [pwr_index]
    put back by position. *)
Definition score_row (r : CountryRecord) (z : list Q) : ScoreRow :=
  {| scaled := z;
     strength_score := mean z;
     sr_country := country r;
     sr_pwr_index := pwr_index r |}.

Definition score_rows (df_clean : CountryTable) (scaled_data : list (list Q))
  : list ScoreRow :=
  map (fun rz => score_row (fst rz) (snd rz)) (combine df_clean scaled_data).

(** [create_strength_score(df)].  The first component is the state of the
    frame [df] after the call: the function assigns the coerced columns to
    [df] itself.  The second is what the call returns or raises. *)
Definition create_strength_score (df : CountryTable)
  : CountryTable * result (list ScoreRow) :=
  let df' := map coerce_record df in
  let df_clean := dropna df' in
  (df',
   X <- to_matrix df_clean ;;
   scaled_data <- fit_transform X ;;
   Ok (sort_values_desc (fun r => Some (strength_score r))
                        (score_rows df_clean scaled_data))).

(** *** Growth Trajectory Estimator *)

(** [dict(zip(military_strength['country'],
    military_strength['country_code']))]: the pairs in row order. *)
Definition country_mapping (ms : CountryTable)
  : list (string * option string) :=
  map (fun r => (country r, country_code r)) ms.

(** [country_mapping.get(country)]: [None] when the key is absent; of two
    rows with the same country the later one has overwritten the earlier. *)
Definition dict_get (d : list (string * option string)) (k : string)
  : option (option string) :=
  option_map snd (find (fun kv => String.eqb (fst kv) k) (rev d)).

(** [if country_code:] -- Python's [None] and the empty string are falsy,
    a NaN (a country whose code is null) is truthy. *)
Definition truthy (v : option (option string)) : bool :=
  match v with
  | None => false
  | Some None => true
  | Some (Some s) => negb (String.eqb s "")
  end.

(** One comparison of [budget_df['Country Code'] == country_code]; a null
    on either side compares unequal. *)
Definition code_eqb (bc : option string) (v : option (option string)) : bool :=
  match bc, v with
  | Some b, Some (Some c) => String.eqb b c
  | _, _ => false
  end.

(** [range(2000, 2021)] *)
Definition year_range : list Z :=
  map (fun k => (2000 + Z.of_nat k)%Z) (seq 0 21).

(** [[str(year) for year in range(2000, 2021)
      if str(year) in country_budget.columns]] *)
Definition years_of (budget_df : BudgetTable) : list Z :=
  filter (fun y => existsb (Z.eqb y) (year_columns budget_df)) year_range.

Fixpoint column_index (y : Z) (cols : list Z) : option nat :=
  match cols with
  | [] => None
  | c :: cols' =>
      if Z.eqb y c then Some O else option_map S (column_index y cols')
  end.

(** The cell of a row in the column labelled [y]. *)
Definition cell_at (budget_df : BudgetTable) (r : BudgetRow) (y : Z) : cell :=
  match column_index y (year_columns budget_df) with
  | Some i => nth i (year_values r) CNull
  | None => CNull
  end.

(** A column that holds a string anywhere has dtype [object]; the values
    of a selection with such a column form an [object] array. *)
Definition object_dtype (budget_df : BudgetTable) (y : Z) : bool :=
  existsb (fun r => is_str (cell_at budget_df r y)) (budget_rows budget_df).

(** [~np.isnan(values)]: [np.isnan] raises [TypeError] on an [object]
    array. *)
Definition valid_indices (budget_df : BudgetTable) (years : list Z)
  (values : list cell) : result (list bool) :=
  if existsb (object_dtype budget_df) years then Raise TypeError
  else Ok (map (fun c => negb (isna c)) values).

(** [sum(valid_indices)] *)
Definition count_true (mask : list bool) : nat :=
  List.length (filter (fun b => b) mask).

(** [a[mask]] *)
Definition boolean_index {A : Type} (a : list A) (mask : list bool) : list A :=
  map fst (filter snd (combine a mask)).

Definition float_of (c : cell) : Q :=
  match c with
  | CNum q => q
  | _ => 0
  end.

(** [np.array(range(n))] *)
Definition arange (n : nat) : list Q :=
  map (fun k => inject_Z (Z.of_nat k)) (seq 0 n).

(** [LinearRegression().fit(X, y).coef_[0]] for one regressor: X and y are
    centred and the least-squares coefficient of the centred data is
    returned. *)
Definition coef_ (X y : list Q) : Q :=
  let xc := map (fun x => x - mean X) X in
  let yc := map (fun v => v - mean y) y in
  Qsum (map (fun p => fst p * snd p) (combine xc yc))
  / Qsum (map (fun x => x * x) xc).

(** From [valid_indices = ...] to the value of [growth_score]. *)
Definition trend (values : list Q) (mask : list bool) : Q :=
  if (5 <? count_true mask)%nat then
    let X := boolean_index (arange (List.length values)) mask in
    let y := boolean_index values mask in
    coef_ X y
  else 0.

(** The body of the [try] for one country. *)
Definition growth_try (mapping : list (string * option string))
  (budget_df : BudgetTable) (c : string) : result Q :=
  let code := dict_get mapping c in
  if truthy code then
    let country_budget :=
      filter (fun r => code_eqb (budget_code r) code) (budget_rows budget_df) in
    match country_budget with
    | [] => Ok 0
    | row0 :: _ =>
        let years := years_of budget_df in
        match years with
        | [] => Ok 0
        | _ =>
            let values := map (cell_at budget_df row0) years in
            mask <- valid_indices budget_df years values ;;
            Ok (trend (map float_of values) mask)
        end
    end
  else Ok 0.

(** [try: ... except Exception as e: growth_score = 0] *)
Definition growth_of (mapping : list (string * option string))
  (budget_df : BudgetTable) (c : string) : Q :=
  catch (growth_try mapping budget_df c) 0.

(** [Series.min()] and [Series.max()]: NaN ([None]) on an empty column. *)
Definition series_min (l : list Q) : option Q :=
  match l with
  | [] => None
  | x :: l' => Some (fold_left Qmin l' x)
  end.

Definition series_max (l : list Q) : option Q :=
  match l with
  | [] => None
  | x :: l' => Some (fold_left Qmax l' x)
  end.

(** The column [growth_score_normalized]; a comparison with NaN is
    false. *)
Definition normalize (growth_scores : list Q) : list Q :=
  match series_min growth_scores, series_max growth_scores with
  | Some min_growth, Some max_growth =>
      if Qltb min_growth max_growth then
        map (fun g => (g - min_growth) / (max_growth - min_growth))
            growth_scores
      else map (fun _ => 0) growth_scores
  | _, _ => map (fun _ => 0) growth_scores
  end.

(** [analyze_growth_trajectory(strength_df, budget_df)].  [ms] is the
    global [military_strength] the function reads.  The result is the
    frame [strength_df] itself with its two new columns, which is also
    what the function returns. *)
Definition analyze_growth_trajectory (ms : CountryTable)
  (strength_df : list ScoreRow) (budget_df : BudgetTable) : list GrowthRow :=
  let mapping := country_mapping ms in
  let growth_scores :=
    map (fun r => growth_of mapping budget_df (sr_country r)) strength_df in
  map (fun rgn =>
         {| base := fst rgn;
            growth_score := fst (snd rgn);
            growth_score_normalized := snd (snd rgn) |})
      (combine strength_df (combine growth_scores (normalize growth_scores))).

(** *** Projection Ranker *)

Definition current_year : Z := 2024.

(** [(strength_weight, growth_weight)] *)
Definition weights (target_year : Z) : Q * Q :=
  let years_projection := (target_year - current_year)%Z in
  if (10 <? years_projection)%Z then (1 # 2, 1 # 2) else (7 # 10, 3 # 10).

(** One entry of the column [projection_score]; NaN when [pwr_index] is. *)
Definition projection (w : Q * Q) (r : GrowthRow) : option Q :=
  match sr_pwr_index (base r) with
  | Some p =>
      Some (fst w * strength_score (base r)
            + snd w * growth_score_normalized r
            - (1 # 5) * p)
  | None => None
  end.

(** [predict_future_ranking(df, target_year)].  The first component is the
    state of the frame [df] after the call (the function assigns the
    column [projection_score] to [df]); the second is the frame
    [df_sorted] it returns. *)
Definition predict_future_ranking (df : Frame) (target_year : Z)
  : Frame * Frame :=
  let col := map (projection (weights target_year)) (rows df) in
  let df_sorted := sort_values_desc snd (combine (rows df) col) in
  ({| rows := rows df; projection_score := Some col |},
   {| rows := map fst df_sorted; projection_score := Some (map snd df_sorted) |}).

(** *** The driver (lines 1931-1940)

    [military_strength] goes in and comes out (its state after the run);
    an exception raised on the way is the one the enclosing [try] of the
    page reports. *)
Definition pipeline (military_strength : CountryTable)
  (defense_budget : BudgetTable) (target_year : Z)
  : CountryTable * result Frame :=
  let step1 := create_strength_score military_strength in
  (fst step1,
   strength_df <- snd step1 ;;
   let projection_df :=
     analyze_growth_trajectory (fst step1) strength_df defense_budget in
   Ok (snd (predict_future_ranking
              {| rows := projection_df; projection_score := None |}
              target_year))).

End Engine.

(** ** Statements in the words of the specification *)

(** The score the source writes for one row, spelled out. *)
Definition score_formula (strength_weight growth_weight : Q) (r : GrowthRow)
  : option Q :=
  option_map
    (fun pwr => strength_weight * strength_score (base r)
                + growth_weight * growth_score_normalized r
                - (1 # 5) * pwr)
    (sr_pwr_index (base r)).

(** [m] is the least (greatest) value of a column: it bounds every entry
    and is one of them. *)
Definition is_min (m : Q) (l : list Q) : Prop :=
  (exists g, In g l /\ g == m) /\ forall g, In g l -> m <= g.

Definition is_max (m : Q) (l : list Q) : Prop :=
  (exists g, In g l /\ g == m) /\ forall g, In g l -> g <= m.

(** The cells [values] that [analyze_growth_trajectory] extracts for the
    country [c]: its code is found and truthy, the budget frame has a row
    with that code, and at least one year of 2000-2020 is a column. *)
Definition selected_values (mapping : list (string * option string))
  (budget_df : BudgetTable) (c : string) (values : list cell) : Prop :=
  exists row0 rest,
    truthy (dict_get mapping c) = true
    /\ filter (fun r => code_eqb (budget_code r) (dict_get mapping c))
              (budget_rows budget_df) = row0 :: rest
    /\ years_of budget_df <> []
    /\ values = map (cell_at budget_df row0) (years_of budget_df).

(** The mask of the valid (non-null) years and their number. *)
Definition valid_mask (values : list cell) : list bool :=
  map (fun c => negb (isna c)) values.

Definition valid_years (values : list cell) : nat :=
  count_true (valid_mask values).

(** The regression the specification words describe: the valid values
    against their 0-based position in the sequence of valid years. *)
Definition sequential_index_slope (values : list cell) : Q :=
  let y := boolean_index (map float_of values) (valid_mask values) in
  coef_ (arange (List.length y)) y.

(** The regression of the source: the valid values against their 0-based
    position in the list of selected years, null years included. *)
Definition year_position_slope (values : list cell) : Q :=
  coef_ (boolean_index (arange (List.length values)) (valid_mask values))
        (boolean_index (map float_of values) (valid_mask values)).

(** ** [sort_values(key)] in ascending order

    Rows by increasing key, rows whose key is NaN last; as for the
    decreasing order, the proofs use only that the result is ordered and
    is a rearrangement. *)

Definition key_leb (a b : option Q) : bool :=
  match a, b with
  | Some x, Some y => Qle_bool x y
  | _, None => true
  | None, Some _ => false
  end.

Section SortingAscending.
Context {A : Type} (key : A -> option Q).

Fixpoint insert_asc (x : A) (l : list A) : list A :=
  match l with
  | [] => [x]
  | y :: l' =>
      if key_leb (key x) (key y) then x :: l else y :: insert_asc x l'
  end.

Definition sort_values_asc (l : list A) : list A :=
  fold_right insert_asc [] l.

End SortingAscending.

(** ** The rank comparison of the prediction page (lines 1961-1982) *)

(** [{country: idx+1 for idx, country in enumerate(names.head(15))}]: the
    items in the order they are produced; of two items with the same
    country the later one is the entry of the dict. *)
Definition rank_dict (names : list string) : list (string * Z) :=
  let top := firstn 15 names in
  combine top (map (fun idx => (Z.of_nat idx + 1)%Z)
                   (seq 0 (List.length top))).

(** [ranks.get(country, 20)] *)
Definition rank_get (ranks : list (string * Z)) (c : string) : Z :=
  match find (fun kv => String.eqb (fst kv) c) (rev ranks) with
  | Some kv => snd kv
  | None => 20
  end.

(** One row of [vis_data]. *)
Record VisRow : Type := {
  vis_country : string;
  current_rank : Z;
  predicted_rank : Z;
  rank_change : Z
}.

(** [set(list(current_ranks.keys()) + list(future_ranks.keys()))], in
    one of the orders the set may be iterated in. *)
Definition all_countries (current_ranks future_ranks : list (string * Z))
  : list string :=
  nodup string_dec (map fst current_ranks ++ map fst future_ranks)%list.

Definition vis_row (current_ranks future_ranks : list (string * Z))
  (c : string) : VisRow :=
  {| vis_country := c;
     current_rank := rank_get current_ranks c;
     predicted_rank := rank_get future_ranks c;
     rank_change := (rank_get current_ranks c - rank_get future_ranks c)%Z |}.

(** The loop that fills [vis_data]: a row is appended [if current_rank <=
    15 or future_rank <= 15]. *)
Definition vis_data (current_ranks future_ranks : list (string * Z))
  : list VisRow :=
  filter (fun v => (current_rank v <=? 15)%Z || (predicted_rank v <=? 15)%Z)
         (map (vis_row current_ranks future_ranks)
              (all_countries current_ranks future_ranks)).

(** [pd.DataFrame(vis_data).sort_values('Predicted Rank (2047)')] for the
    two columns of countries; [None] is the [KeyError] that [sort_values]
    raises on the frame without columns made of an empty [vis_data]. *)
Definition rank_changes (current_names future_names : list string)
  : option (list VisRow) :=
  match vis_data (rank_dict current_names) (rank_dict future_names) with
  | [] => None
  | rows => Some (sort_values_asc
                    (fun v => Some (inject_Z (predicted_rank v))) rows)
  end.

(** The two columns the driver compares: [strength_df['country']] and
    [future_ranking['country']]. *)
Definition driver_rank_changes (strength_df : list ScoreRow)
  (future_ranking : Frame) : option (list VisRow) :=
  rank_changes (map sr_country strength_df)
               (map (fun r => sr_country (base r)) (rows future_ranking)).

(** The sum of a column of integers. *)
Definition Zsum (l : list Z) : Z := fold_right Z.add 0%Z l.

(** ** Sample inputs

    A parser and a square root to run the engine with, and small tables
    in the shape of the two CSV files. *)

Definition digit_of (c : Ascii.ascii) : option Z :=
  let n := Ascii.nat_of_ascii c in
  if ((48 <=? n) && (n <=? 57))%nat then Some (Z.of_nat (n - 48)) else None.

Fixpoint digits_from (acc : Z) (s : string) : option Z :=
  match s with
  | EmptyString => Some acc
  | String c s' =>
      match digit_of c with
      | Some d => digits_from (10 * acc + d) s'
      | None => None
      end
  end.

(** Reads an unsigned decimal integer; anything else, a thousands
    separator included, is no number. *)
Definition parse_decimal (s : string) : option Q :=
  match s with
  | EmptyString => None
  | _ => option_map inject_Z (digits_from 0 s)
  end.

(** The square root rounded down to six decimal places. *)
Definition sqrt_approx (q : Q) : Q :=
  Z.sqrt (Qnum q * Zpos (Qden q) * 10 ^ 12) # (Qden q * 10 ^ 6).

Definition num (z : Z) : cell := CNum (inject_Z z).

(** Country A and B are complete (one field of A is a numeric string),
    C has an indicator that does not parse, D has a null one. *)
Definition sample_countries : CountryTable :=
  [ {| country := "A"; country_code := Some "AAA"; pwr_index := Some (1 # 5);
       total_national_populations := num 300;
       active_service_military_manpower := num 20;
       total_military_aircraft_strength := num 9;
       total_combat_tank_strength := num 8;
       navy_strength := num 5;
       national_annual_defense_budgets := CStr "900";
       purchasing_power_parities := num 40 |};
    {| country := "B"; country_code := Some "BBB"; pwr_index := Some (3 # 10);
       total_national_populations := num 100;
       active_service_military_manpower := num 10;
       total_military_aircraft_strength := num 3;
       total_combat_tank_strength := num 8;
       navy_strength := num 1;
       national_annual_defense_budgets := num 100;
       purchasing_power_parities := num 20 |};
    {| country := "C"; country_code := Some "CCC"; pwr_index := Some (1 # 2);
       total_national_populations := CStr "1,000";
       active_service_military_manpower := num 10;
       total_military_aircraft_strength := num 3;
       total_combat_tank_strength := num 8;
       navy_strength := num 1;
       national_annual_defense_budgets := num 100;
       purchasing_power_parities := num 20 |};
    {| country := "D"; country_code := None; pwr_index := None;
       total_national_populations := num 5;
       active_service_military_manpower := CNull;
       total_military_aircraft_strength := num 3;
       total_combat_tank_strength := num 8;
       navy_strength := num 1;
       national_annual_defense_budgets := num 100;
       purchasing_power_parities := num 20 |} ].

(** A table none of whose rows is complete. *)
Definition sample_incomplete : CountryTable :=
  [ {| country := "C"; country_code := Some "CCC"; pwr_index := Some (1 # 2);
       total_national_populations := CStr "1,000";
       active_service_military_manpower := num 10;
       total_military_aircraft_strength := num 3;
       total_combat_tank_strength := num 8;
       navy_strength := num 1;
       national_annual_defense_budgets := num 100;
       purchasing_power_parities := num 20 |} ].

(** Year columns 2000 to 2010.  AAA reports every second year, 10 more
    each time; BBB is flat; CCC has five valid years. *)
Definition sample_budget : BudgetTable :=
  {| year_columns := [2000; 2001; 2002; 2003; 2004; 2005; 2006; 2007; 2008;
                      2009; 2010]%Z;
     budget_rows :=
       [ {| budget_code := Some "AAA";
            year_values := [num 0; CNull; num 10; CNull; num 20; CNull;
                            num 30; CNull; num 40; CNull; num 50] |};
         {| budget_code := Some "BBB";
            year_values := [num 7; num 7; num 7; num 7; num 7; num 7;
                            num 7; num 7; num 7; num 7; num 7] |};
         {| budget_code := Some "CCC";
            year_values := [num 1; num 4; num 9; num 16; num 25; CNull;
                            CNull; CNull; CNull; CNull; CNull] |} ] |}.

(** The same frame with a string in the column 2003 of BBB. *)
Definition sample_budget_object : BudgetTable :=
  {| year_columns := year_columns sample_budget;
     budget_rows :=
       [ {| budget_code := Some "AAA";
            year_values := [num 0; CNull; num 10; CNull; num 20; CNull;
                            num 30; CNull; num 40; CNull; num 50] |};
         {| budget_code := Some "BBB";
            year_values := [num 7; num 7; num 7; CStr ".."; num 7; num 7;
                            num 7; num 7; num 7; num 7; num 7] |} ] |}.

Definition sample_values_A : list cell :=
  [num 0; CNull; num 10; CNull; num 20; CNull; num 30; CNull; num 40; CNull;
   num 50].

(** A frame for the ranker: A is stronger, B has no growth, and the frame
    has no column [projection_score] yet. *)
Definition sample_frame : Frame :=
  {| rows :=
       [ {| base := {| scaled := []; strength_score := 1 # 2;
                       sr_country := "B"; sr_pwr_index := Some (3 # 10) |};
            growth_score := 0; growth_score_normalized := 0 |};
         {| base := {| scaled := []; strength_score := 1;
                       sr_country := "A"; sr_pwr_index := Some (1 # 5) |};
            growth_score := 5; growth_score_normalized := 1 |} ];
     projection_score := None |}.

(** A source table whose indicator cells are all numbers already. *)
Definition sample_numeric : CountryTable :=
  [ {| country := "B"; country_code := Some "BBB"; pwr_index := Some (3 # 10);
       total_national_populations := num 100;
       active_service_military_manpower := num 10;
       total_military_aircraft_strength := num 3;
       total_combat_tank_strength := num 8;
       navy_strength := num 1;
       national_annual_defense_budgets := num 100;
       purchasing_power_parities := num 20 |} ].

(** Two rows, a constant column and a column of variance 4. *)
Definition sample_matrix : list (list Q) := [[1; 5]; [1; 9]].

(** The frame the scorer returns for the sample countries. *)
Definition sample_strength_df : list ScoreRow :=
  match snd (create_strength_score parse_decimal sqrt_approx sample_countries)
  with
  | Ok out => out
  | Raise _ => []
  end.

(** * Properties *)

(** ** Sorting *)

Section SortingFacts.
Context {A : Type} (key : A -> option Q).

Lemma key_geb_total (a b : option Q) :
  key_geb a b = false -> key_geb b a = true.
Proof.
  destruct a as [x|], b as [y|]; simpl; try reflexivity; try discriminate.
  intros H. apply Qle_bool_iff.
  destruct (Qlt_le_dec x y) as [Hlt|Hle].
  - now apply Qlt_le_weak.
  - apply Qle_bool_iff in Hle. congruence.
Qed.

Lemma insert_desc_perm (x : A) (l : list A) :
  Permutation (insert_desc key x l) (x :: l).
Proof.
  induction l as [|y l IH]; simpl.
  - apply Permutation_refl.
  - destruct (key_geb (key x) (key y)).
    + apply Permutation_refl.
    + eapply perm_trans; [apply perm_skip, IH | apply perm_swap].
Qed.

Lemma sort_values_desc_perm (l : list A) :
  Permutation (sort_values_desc key l) l.
Proof.
  induction l as [|x l IH]; simpl.
  - apply perm_nil.
  - eapply perm_trans; [apply insert_desc_perm | now apply perm_skip].
Qed.

Lemma insert_desc_HdRel (a x : A) (l : list A) :
  before key a x -> HdRel (before key) a l ->
  HdRel (before key) a (insert_desc key x l).
Proof.
  intros Hax Hl. destruct l as [|y l]; simpl.
  - now constructor.
  - destruct (key_geb (key x) (key y)); constructor; trivial.
    now inversion Hl.
Qed.

Lemma insert_desc_sorted (x : A) (l : list A) :
  Sorted (before key) l -> Sorted (before key) (insert_desc key x l).
Proof.
  induction l as [|y l IH]; simpl; intros Hs.
  - repeat constructor.
  - destruct (key_geb (key x) (key y)) eqn:E.
    + constructor; [assumption | now constructor].
    + inversion Hs as [|? ? Hs' Hhd]; subst.
      constructor; [now apply IH |].
      apply insert_desc_HdRel; [now apply key_geb_total | assumption].
Qed.

Lemma sort_values_desc_sorted (l : list A) :
  Sorted (before key) (sort_values_desc key l).
Proof.
  induction l as [|x l IH]; simpl.
  - constructor.
  - now apply insert_desc_sorted.
Qed.

Lemma sort_values_desc_length (l : list A) :
  List.length (sort_values_desc key l) = List.length l.
Proof. apply Permutation_length, sort_values_desc_perm. Qed.

End SortingFacts.

(** The key column of a sorted frame is itself in decreasing order. *)
Lemma Sorted_map_key {A : Type} (key : A -> option Q) (l : list A) :
  Sorted (before key) l ->
  Sorted (fun a b => key_geb a b = true) (map key l).
Proof.
  induction 1 as [|x l Hs IH Hhd]; simpl; constructor; trivial.
  destruct Hhd; simpl; constructor. assumption.
Qed.

(** ** Lists zipped with a column computed from them *)

Lemma map_fst_combine_map {A B : Type} (f : A -> B) (l : list A) :
  map fst (combine l (map f l)) = l.
Proof. induction l; simpl; congruence. Qed.

Lemma map_snd_combine_map {A B : Type} (f : A -> B) (l : list A) :
  map snd (combine l (map f l)) = map f l.
Proof. induction l; simpl; congruence. Qed.

Lemma Forall_combine_map {A B : Type} (f : A -> B) (l : list A) :
  Forall (fun p => snd p = f (fst p)) (combine l (map f l)).
Proof. induction l; simpl; constructor; auto. Qed.

Lemma Forall2_fst_snd {A B : Type} (P : A -> B -> Prop) (l : list (A * B)) :
  Forall (fun p => P (fst p) (snd p)) l -> Forall2 P (map fst l) (map snd l).
Proof. induction 1; simpl; constructor; auto. Qed.

(** ** Projection Ranker *)

Lemma weights_long (target_year : Z) :
  (10 < target_year - 2024)%Z -> weights target_year = (1 # 2, 1 # 2).
Proof.
  intros H. unfold weights, current_year.
  now destruct (Z.ltb_spec 10 (target_year - 2024)); [|lia].
Qed.

Lemma weights_short (target_year : Z) :
  (target_year - 2024 <= 10)%Z -> weights target_year = (7 # 10, 3 # 10).
Proof.
  intros H. unfold weights, current_year.
  now destruct (Z.ltb_spec 10 (target_year - 2024)); [lia|].
Qed.

Lemma projection_formula (w : Q * Q) (r : GrowthRow) :
  projection w r = score_formula (fst w) (snd w) r.
Proof.
  unfold projection, score_formula. now destruct (sr_pwr_index (base r)).
Qed.

(** C2.  For every frame and target year the ranker scores each row with
    [strength_weight * strength_score + growth_weight *
    growth_score_normalized - 0.2 * pwr_index] (NaN where [pwr_index] is),
    the weights being (0.5, 0.5) exactly when [target_year - 2024 > 10] and
    (0.7, 0.3) otherwise, so (0.7, 0.3) for 2034 and (0.5, 0.5) for 2035;
    the frame it returns holds the rows it was given, ordered by
    decreasing score (NaN scores last). *)
Theorem predict_future_ranking_scores_and_sorts (df : Frame) (target_year : Z) :
  let df_sorted := snd (predict_future_ranking df target_year) in
  let strength_weight := fst (weights target_year) in
  let growth_weight := snd (weights target_year) in
  ((strength_weight, growth_weight) = (1 # 2, 1 # 2)
     <-> (10 < target_year - 2024)%Z)
  /\ ((strength_weight, growth_weight) = (7 # 10, 3 # 10)
     <-> (target_year - 2024 <= 10)%Z)
  /\ weights 2034 = (7 # 10, 3 # 10)
  /\ weights 2035 = (1 # 2, 1 # 2)
  /\ Permutation (rows df_sorted) (rows df)
  /\ exists col,
       projection_score df_sorted = Some col
       /\ Forall2 (fun r s => s = score_formula strength_weight growth_weight r)
                  (rows df_sorted) col
       /\ Sorted (fun a b => key_geb a b = true) col.
Proof.
  cbv zeta. rewrite <- surjective_pairing.
  split; [|split; [|split; [reflexivity|split; [reflexivity|split]]]].
  - split.
    + intros E. destruct (Z.ltb_spec 10 (target_year - 2024)) as [|Hle]; trivial.
      rewrite (weights_short _ Hle) in E. discriminate.
    + apply weights_long.
  - split.
    + intros E. destruct (Z.ltb_spec 10 (target_year - 2024)) as [Hlt|]; trivial.
      rewrite (weights_long _ Hlt) in E. discriminate.
    + apply weights_short.
  - simpl. eapply perm_trans.
    + apply Permutation_map, sort_values_desc_perm.
    + rewrite map_fst_combine_map. apply Permutation_refl.
  - simpl. eexists. split; [reflexivity|]. split.
    + apply Forall2_fst_snd.
      eapply Permutation_Forall.
      * apply Permutation_sym, sort_values_desc_perm.
      * eapply Forall_impl; [|apply Forall_combine_map].
        intros [r s]; simpl. intros ->. apply projection_formula.
    + apply Sorted_map_key, sort_values_desc_sorted.
Qed.

(** ** Min-max normalization *)

Lemma fold_left_Qmin_spec (l : list Q) (x : Q) :
  is_min (fold_left Qmin l x) (x :: l).
Proof.
  revert x. induction l as [|y l IH]; intros x; simpl.
  - split.
    + exists x. split; [now left | reflexivity].
    + intros g [<-|[]]. apply Qle_refl.
  - destruct (IH (Qmin x y)) as [[g [Hin Hg]] Hle]. split.
    + destruct Hin as [<-|Hin].
      * destruct (Q.min_dec x y) as [E|E].
        -- exists x. split; [now left | now rewrite <- Hg, E].
        -- exists y. split; [right; now left | now rewrite <- Hg, E].
      * exists g. split; [right; now right | assumption].
    + intros h [<-|[<-|Hh]].
      * eapply Qle_trans; [apply Hle; now left | apply Q.le_min_l].
      * eapply Qle_trans; [apply Hle; now left | apply Q.le_min_r].
      * apply Hle. now right.
Qed.

Lemma fold_left_Qmax_spec (l : list Q) (x : Q) :
  is_max (fold_left Qmax l x) (x :: l).
Proof.
  revert x. induction l as [|y l IH]; intros x; simpl.
  - split.
    + exists x. split; [now left | reflexivity].
    + intros g [<-|[]]. apply Qle_refl.
  - destruct (IH (Qmax x y)) as [[g [Hin Hg]] Hle]. split.
    + destruct Hin as [<-|Hin].
      * destruct (Q.max_dec x y) as [E|E].
        -- exists x. split; [now left | now rewrite <- Hg, E].
        -- exists y. split; [right; now left | now rewrite <- Hg, E].
      * exists g. split; [right; now right | assumption].
    + intros h [<-|[<-|Hh]].
      * eapply Qle_trans; [apply Q.le_max_l | apply Hle; now left].
      * eapply Qle_trans; [apply Q.le_max_r | apply Hle; now left].
      * apply Hle. now right.
Qed.

Lemma is_min_unique (m m' : Q) (l : list Q) :
  is_min m l -> is_min m' l -> m == m'.
Proof.
  intros [[g [Hg Eg]] Hle] [[g' [Hg' Eg']] Hle'].
  apply Qle_antisym.
  - rewrite <- Eg'. now apply Hle.
  - rewrite <- Eg. now apply Hle'.
Qed.

Lemma is_max_unique (m m' : Q) (l : list Q) :
  is_max m l -> is_max m' l -> m == m'.
Proof.
  intros [[g [Hg Eg]] Hle] [[g' [Hg' Eg']] Hle'].
  apply Qle_antisym.
  - rewrite <- Eg. now apply Hle'.
  - rewrite <- Eg'. now apply Hle.
Qed.

Lemma is_min_le_is_max (mn mx : Q) (l : list Q) :
  is_min mn l -> is_max mx l -> mn <= mx.
Proof.
  intros [[g [Hg Eg]] Hle] [_ Hle']. rewrite <- Eg. now apply Hle'.
Qed.

Lemma Qltb_lt (a b : Q) : Qltb a b = true <-> a < b.
Proof.
  unfold Qltb. rewrite negb_true_iff. split.
  - intros H. apply Qnot_le_lt. intros Hle.
    apply Qle_bool_iff in Hle. congruence.
  - intros H. destruct (Qle_bool b a) eqn:E; trivial.
    apply Qle_bool_iff in E. exfalso. now apply (Qlt_not_le a b).
Qed.

Lemma normalize_length (gs : list Q) :
  List.length (normalize gs) = List.length gs.
Proof.
  unfold normalize.
  destruct (series_min gs), (series_max gs); try apply length_map.
  destruct (Qltb _ _); apply length_map.
Qed.

Lemma Forall2_map_same {A B C : Type} (P : B -> C -> Prop)
  (f : A -> B) (g : A -> C) (l : list A) :
  (forall a, In a l -> P (f a) (g a)) -> Forall2 P (map f l) (map g l).
Proof.
  induction l as [|a l IH]; simpl; intros H; constructor.
  - apply H. now left.
  - apply IH. intros b Hb. apply H. now right.
Qed.

Lemma normalize_spec (gs : list Q) (mn mx : Q) :
  is_min mn gs -> is_max mx gs ->
  Forall2 (fun g n =>
             (mx == mn -> n == 0)
             /\ (~ mx == mn -> n == (g - mn) / (mx - mn)))
          gs (normalize gs).
Proof.
  intros Hmin Hmax. unfold normalize.
  destruct gs as [|x l].
  - constructor.
  - unfold series_min, series_max.
    pose proof (fold_left_Qmin_spec l x) as Hmin'.
    pose proof (fold_left_Qmax_spec l x) as Hmax'.
    pose proof (is_min_unique _ _ _ Hmin Hmin') as Emin.
    pose proof (is_max_unique _ _ _ Hmax Hmax') as Emax.
    set (mn' := fold_left Qmin l x) in *.
    set (mx' := fold_left Qmax l x) in *.
    pose proof (is_min_le_is_max _ _ _ Hmin Hmax) as Hle.
    destruct (Qltb mn' mx') eqn:E.
    + apply Qltb_lt in E. rewrite <- Emin, <- Emax in E.
      rewrite <- (map_id (x :: l)) at 1.
      apply Forall2_map_same. intros g _. split.
      * intros Heq. rewrite Heq in E. now apply Qlt_irrefl in E.
      * intros _. now rewrite Emin, Emax.
    + rewrite <- (map_id (x :: l)) at 1.
      apply Forall2_map_same. intros g _. split.
      * reflexivity.
      * intros Hne. exfalso. apply Hne. apply Qle_antisym; trivial.
        apply Qnot_lt_le. intros Hlt.
        rewrite Emin, Emax in Hlt. apply Qltb_lt in Hlt. congruence.
Qed.

(** ** Growth Trajectory Estimator: the frame it builds *)

Lemma map_combine3 {A B C D : Type} (mk : A * (B * C) -> D)
  (f : D -> A) (g : D -> B) (h : D -> C)
  (a : list A) (b : list B) (c : list C) :
  (forall x, f (mk x) = fst x) ->
  (forall x, g (mk x) = fst (snd x)) ->
  (forall x, h (mk x) = snd (snd x)) ->
  List.length b = List.length a -> List.length c = List.length a ->
  let out := map mk (combine a (combine b c)) in
  map f out = a /\ map g out = b /\ map h out = c.
Proof.
  intros Hf Hg Hh. revert b c.
  induction a as [|x a IH]; intros [|y b] [|z c]; simpl; try discriminate;
    intros Hb Hc; auto.
  injection Hb as Hb. injection Hc as Hc.
  destruct (IH b c Hb Hc) as (E1 & E2 & E3).
  rewrite Hf, Hg, Hh. simpl. repeat split; congruence.
Qed.

Lemma analyze_growth_trajectory_columns (ms : CountryTable)
  (strength_df : list ScoreRow) (budget_df : BudgetTable) :
  let growth_scores :=
    map (fun r => growth_of (country_mapping ms) budget_df (sr_country r))
        strength_df in
  let out := analyze_growth_trajectory ms strength_df budget_df in
  map base out = strength_df
  /\ map growth_score out = growth_scores
  /\ map growth_score_normalized out = normalize growth_scores.
Proof.
  cbv zeta. unfold analyze_growth_trajectory.
  apply map_combine3; try reflexivity.
  - apply length_map.
  - rewrite normalize_length. apply length_map.
Qed.

Lemma Forall2_map_same_inv {A B C : Type} (P : B -> C -> Prop)
  (f : A -> B) (g : A -> C) (l : list A) :
  Forall2 P (map f l) (map g l) -> forall a, In a l -> P (f a) (g a).
Proof.
  induction l as [|x l IH]; simpl; intros H a Ha; [contradiction|].
  inversion H; subst. destruct Ha as [<-|Ha]; auto.
Qed.

(** C7.  The column [growth_score_normalized] is [(g - min) / (max - min)]
    with [min] and [max] taken over the whole column [growth_score]; when
    [max] equals [min], and so when all growth scores are the same, it is 0
    on every row.  The estimator is a total function: it returns a frame
    with a row for each row it was given. *)
Theorem growth_score_normalized_min_max (ms : CountryTable)
  (strength_df : list ScoreRow) (budget_df : BudgetTable) :
  let out := analyze_growth_trajectory ms strength_df budget_df in
  List.length out = List.length strength_df
  /\ (forall mn mx,
        is_min mn (map growth_score out) ->
        is_max mx (map growth_score out) ->
        forall r, In r out ->
          (mx == mn -> growth_score_normalized r == 0)
          /\ (~ mx == mn ->
                growth_score_normalized r == (growth_score r - mn) / (mx - mn)))
  /\ ((forall r r', In r out -> In r' out ->
                     growth_score r == growth_score r') ->
      forall r, In r out -> growth_score_normalized r == 0).
Proof.
  cbv zeta.
  destruct (analyze_growth_trajectory_columns ms strength_df budget_df)
    as (Hb & Hg & Hn).
  set (out := analyze_growth_trajectory ms strength_df budget_df) in *.
  assert (Hspec : forall mn mx,
             is_min mn (map growth_score out) ->
             is_max mx (map growth_score out) ->
             forall r, In r out ->
               (mx == mn -> growth_score_normalized r == 0)
               /\ (~ mx == mn ->
                     growth_score_normalized r
                     == (growth_score r - mn) / (mx - mn))).
  { intros mn mx Hmin Hmax.
    apply (Forall2_map_same_inv
             (fun g n => (mx == mn -> n == 0)
                         /\ (~ mx == mn -> n == (g - mn) / (mx - mn)))).
    rewrite Hn, <- Hg. now apply normalize_spec. }
  split; [|split; [exact Hspec|]].
  - rewrite <- Hb at 1. now rewrite length_map.
  - intros Hsame r Hr.
    destruct (map growth_score out) as [|x l] eqn:E.
    { destruct out; [contradiction | discriminate]. }
    pose proof (fold_left_Qmin_spec l x) as Hmin.
    pose proof (fold_left_Qmax_spec l x) as Hmax.
    apply (Hspec _ _ Hmin Hmax r Hr).
    destruct Hmin as [[g [Hgin Eg]] _], Hmax as [[g' [Hg'in Eg']] _].
    rewrite <- E in Hgin, Hg'in.
    apply in_map_iff in Hgin as (r1 & <- & Hr1).
    apply in_map_iff in Hg'in as (r2 & <- & Hr2).
    rewrite <- Eg, <- Eg'. now apply Hsame.
Qed.

(** ** Growth Trajectory Estimator: one country *)


Lemma trend_enough (values : list Q) (mask : list bool) :
  (6 <= count_true mask)%nat ->
  trend values mask
  = coef_ (boolean_index (arange (List.length values)) mask)
          (boolean_index values mask).
Proof.
  intros H. unfold trend.
  now destruct (Nat.ltb_spec 5 (count_true mask)); [|lia].
Qed.

(** What the [try] body comes to for a country that has values. *)
Lemma growth_try_selected (mapping : list (string * option string))
  (budget_df : BudgetTable) (c : string) (values : list cell) :
  selected_values mapping budget_df c values ->
  growth_try mapping budget_df c
  = (mask <- valid_indices budget_df (years_of budget_df) values ;;
     Ok (trend (map float_of values) mask)).
Proof.
  intros (row0 & rest & Ht & Hf & Hy & ->).
  unfold growth_try. rewrite Ht, Hf.
  destruct (years_of budget_df); [contradiction | reflexivity].
Qed.

(** A country without values gets 0 without any exception. *)
Lemma growth_try_not_selected (mapping : list (string * option string))
  (budget_df : BudgetTable) (c : string) :
  (forall values, ~ selected_values mapping budget_df c values) ->
  growth_try mapping budget_df c = Ok 0.
Proof.
  intros H. unfold growth_try.
  destruct (truthy (dict_get mapping c)) eqn:Ht; trivial.
  destruct (filter _ (budget_rows budget_df)) as [|row0 rest] eqn:Hf; trivial.
  destruct (years_of budget_df) as [|y ys] eqn:Hy; trivial.
  exfalso. apply (H (map (cell_at budget_df row0) (y :: ys))).
  exists row0, rest. rewrite Hy. repeat split; trivial. discriminate.
Qed.

Lemma length_map_float_of (values : list cell) :
  List.length (map float_of values) = List.length values.
Proof. apply length_map. Qed.

(** The regression step: the values are floats and at least six of them
    are valid. *)
Lemma growth_of_regression (mapping : list (string * option string))
  (budget_df : BudgetTable) (c : string) (values : list cell) :
  selected_values mapping budget_df c values ->
  existsb (object_dtype budget_df) (years_of budget_df) = false ->
  (6 <= valid_years values)%nat ->
  growth_of mapping budget_df c = year_position_slope values.
Proof.
  intros Hsel Hobj Hn. unfold growth_of.
  rewrite (growth_try_selected _ _ _ _ Hsel).
  unfold valid_indices. rewrite Hobj. simpl.
  fold (valid_mask values). rewrite trend_enough by exact Hn.
  unfold year_position_slope. now rewrite length_map_float_of.
Qed.


(** ** Growth Trajectory Estimator: exceptions and unknown countries *)




(** ** Least squares on a straight line *)

Lemma Qlen_cons {A : Type} (x : A) (l : list A) : Qlen (x :: l) == Qlen l + 1.
Proof.
  unfold Qlen. cbn [List.length].
  rewrite Nat2Z.inj_succ, <- Z.add_1_r, inject_Z_plus. reflexivity.
Qed.

Lemma Qlen_pos {A : Type} (x : A) (l : list A) : 0 < Qlen (x :: l).
Proof.
  unfold Qlen. change 0 with (inject_Z 0). rewrite <- Zlt_Qlt.
  cbn [List.length]. lia.
Qed.

Lemma Qsquare_nonneg (x : Q) : 0 <= x * x.
Proof. unfold Qle. simpl. nia. Qed.

Lemma Qsum_squares_nonneg (l : list Q) : 0 <= Qsum (map (fun x => x * x) l).
Proof.
  induction l as [|x l IH]; simpl.
  - apply Qle_refl.
  - rewrite <- (Qplus_0_r 0). apply Qplus_le_compat; trivial.
    apply Qsquare_nonneg.
Qed.

Lemma Qsum_squares_zero (l : list Q) :
  Qsum (map (fun x => x * x) l) == 0 -> Forall (fun x => x == 0) l.
Proof.
  induction l as [|x l IH]; simpl; intros H; constructor.
  - pose proof (Qsquare_nonneg x) as Hx.
    pose proof (Qsum_squares_nonneg l) as Hl.
    assert (E : x * x == 0).
    { apply Qle_antisym; trivial.
      rewrite <- H. rewrite <- (Qplus_0_r (x * x)) at 1.
      apply Qplus_le_compat; [apply Qle_refl | exact Hl]. }
    destruct (Qmult_integral _ _ E); assumption.
  - apply IH.
    pose proof (Qsquare_nonneg x) as Hx.
    pose proof (Qsum_squares_nonneg l) as Hl.
    apply Qle_antisym; trivial.
    rewrite <- H. rewrite <- (Qplus_0_l (Qsum _)) at 1.
    apply Qplus_le_compat; [exact Hx | apply Qle_refl].
Qed.

Section Line.
Variables a m : Q.

(** The point [(x, v)] is on the line of intercept [a] and slope [m]. *)
Let on_line (x v : Q) : Prop := v == a + m * x.

Lemma Qsum_on_line (X y : list Q) :
  Forall2 on_line X y -> Qsum y == Qlen X * a + m * Qsum X.
Proof.
  induction 1 as [|x v X y Hxv _ IH].
  - unfold Qlen. simpl. ring.
  - unfold on_line in Hxv. rewrite Qlen_cons. simpl. rewrite IH, Hxv. ring.
Qed.

Lemma mean_on_line (X y : list Q) :
  X <> [] -> Forall2 on_line X y -> mean y == a + m * mean X.
Proof.
  intros Hne H. unfold mean.
  rewrite (Qsum_on_line X y H).
  assert (El : Qlen y == Qlen X).
  { unfold Qlen. now rewrite (Forall2_length H). }
  rewrite El.
  destruct X as [|x X]; [congruence|].
  pose proof (Qlen_pos x X) as Hpos.
  field. intros E. rewrite E in Hpos. now apply Qlt_irrefl in Hpos.
Qed.

Lemma centred_products_on_line (X y : list Q) (xm ym : Q) :
  Forall2 on_line X y -> ym == a + m * xm ->
  Qsum (map (fun p => fst p * snd p)
            (combine (map (fun x => x - xm) X) (map (fun v => v - ym) y)))
  == m * Qsum (map (fun x => x * x) (map (fun x => x - xm) X)).
Proof.
  intros H Hm. induction H as [|x v X y Hxv _ IH]; simpl.
  - ring.
  - unfold on_line in Hxv. rewrite IH, Hxv, Hm. ring.
Qed.

Lemma coef_on_line (X y : list Q) :
  Forall2 on_line X y ->
  ~ Qsum (map (fun x => x * x) (map (fun x => x - mean X) X)) == 0 ->
  coef_ X y == m.
Proof.
  intros H Hnz. unfold coef_.
  assert (Hne : X <> []).
  { intros ->. apply Hnz. reflexivity. }
  rewrite (centred_products_on_line X y (mean X) (mean y) H
             (mean_on_line X y Hne H)).
  now field.
Qed.

End Line.

(** ** The regressor of the growth estimator *)

Lemma boolean_index_cons {A : Type} (x : A) (a : list A) (b : bool)
  (mask : list bool) :
  boolean_index (x :: a) (b :: mask)
  = if b then x :: boolean_index a mask else boolean_index a mask.
Proof. unfold boolean_index. simpl. now destruct b. Qed.

Lemma boolean_index_In {A : Type} (a : list A) (mask : list bool) (x : A) :
  In x (boolean_index a mask) -> In x a.
Proof.
  revert mask. induction a as [|y a IH]; intros [|b mask]; try contradiction.
  rewrite boolean_index_cons. destruct b; simpl.
  - intros [->|H]; [now left | right; eauto].
  - intros H. right. eauto.
Qed.

Lemma boolean_index_length {A : Type} (a : list A) (mask : list bool) :
  List.length a = List.length mask ->
  List.length (boolean_index a mask) = count_true mask.
Proof.
  revert mask. induction a as [|y a IH]; intros [|b mask]; simpl;
    try discriminate; trivial.
  intros E. injection E as E. rewrite boolean_index_cons.
  unfold count_true in *. destruct b; simpl; now rewrite IH.
Qed.

(** The positions kept by a mask are strictly increasing. *)
Lemma boolean_index_positions_increasing (s n : nat) (mask : list bool) :
  StronglySorted Qlt
    (boolean_index (map (fun k => inject_Z (Z.of_nat k)) (seq s n)) mask).
Proof.
  revert s mask. induction n as [|n IH]; intros s [|b mask];
    try (simpl; constructor).
  cbn [seq map]. rewrite boolean_index_cons.
  destruct b; [constructor|]; try apply IH.
  apply Forall_forall. intros x Hx.
  apply boolean_index_In, in_map_iff in Hx as (k & <- & Hk).
  apply in_seq in Hk. rewrite <- Zlt_Qlt. lia.
Qed.

Lemma on_line_boolean_index (a m : Q) (values : list cell) (s : nat) :
  (forall i c, nth_error values i = Some c -> isna c = false ->
               float_of c == a + m * inject_Z (Z.of_nat (s + i))) ->
  Forall2 (fun x v => v == a + m * x)
    (boolean_index
       (map (fun k => inject_Z (Z.of_nat k)) (seq s (List.length values)))
       (valid_mask values))
    (boolean_index (map float_of values) (valid_mask values)).
Proof.
  revert s. induction values as [|c values IH]; intros s H.
  - constructor.
  - cbn [List.length seq map valid_mask]. rewrite !boolean_index_cons.
    assert (Htl : Forall2 (fun x v => v == a + m * x)
              (boolean_index
                 (map (fun k => inject_Z (Z.of_nat k))
                      (seq (S s) (List.length values)))
                 (valid_mask values))
              (boolean_index (map float_of values) (valid_mask values))).
    { apply IH. intros i c' Hi Hc'.
      rewrite (H (S i) c' Hi Hc'). now rewrite Nat.add_succ_r. }
    destruct (isna c) eqn:E; simpl; trivial.
    constructor; trivial.
    rewrite (H O c eq_refl E). now rewrite Nat.add_0_r.
Qed.

(** With two valid years or more the regressor is not constant. *)
Lemma year_positions_spread (values : list cell) :
  (2 <= valid_years values)%nat ->
  let X := boolean_index (arange (List.length values)) (valid_mask values) in
  ~ Qsum (map (fun x => x * x) (map (fun x => x - mean X) X)) == 0.
Proof.
  intros Hn X Hz.
  assert (Hlen : List.length X = valid_years values).
  { apply boolean_index_length. unfold arange, valid_mask.
    now rewrite !length_map, length_seq. }
  pose proof (boolean_index_positions_increasing
                0 (List.length values) (valid_mask values)) as Hs.
  fold (arange (List.length values)) in Hs. fold X in Hs.
  apply Qsum_squares_zero in Hz.
  destruct X as [|x0 [|x1 X']]; simpl in Hlen; try lia.
  inversion Hs as [|? ? _ Hlt]; subst.
  inversion Hlt as [|? ? Hx01 _]; subst.
  inversion Hz as [|? ? E0 Hz']; subst.
  inversion Hz' as [|? ? E1 _]; subst.
  remember (mean (x0 :: x1 :: X')) as xm eqn:Exm. clear Exm.
  assert (E : x0 == x1).
  { transitivity xm.
    - rewrite <- (Qplus_0_l xm), <- E0. ring.
    - rewrite <- (Qplus_0_l xm), <- E1. ring. }
  rewrite E in Hx01. now apply Qlt_irrefl in Hx01.
Qed.

(** C1 (as the code has it).  For a country that reaches the regression
    step with at least 6 valid years, [growth_score] is the least-squares
    slope of the valid values against their 0-based position in the list
    of selected years, the positions of null years being skipped, not
    renumbered; for values that lie on a line of slope [m] in that position
    the score is [m]. *)
Theorem growth_score_is_slope_over_year_positions
  (mapping : list (string * option string)) (budget_df : BudgetTable)
  (c : string) (values : list cell) :
  selected_values mapping budget_df c values ->
  existsb (object_dtype budget_df) (years_of budget_df) = false ->
  (6 <= valid_years values)%nat ->
  growth_of mapping budget_df c
  = coef_ (boolean_index (arange (List.length values)) (valid_mask values))
          (boolean_index (map float_of values) (valid_mask values))
  /\ forall a m,
       (forall i v, nth_error values i = Some v -> isna v = false ->
                    float_of v == a + m * inject_Z (Z.of_nat i)) ->
       growth_of mapping budget_df c == m.
Proof.
  intros Hsel Hobj Hn.
  rewrite (growth_of_regression _ _ _ _ Hsel Hobj Hn).
  split; [reflexivity|].
  intros a m Hline. unfold year_position_slope.
  apply (coef_on_line a m).
  - apply (on_line_boolean_index a m values 0). exact Hline.
  - apply year_positions_spread. lia.
Qed.

Lemma sample_A_selected :
  selected_values (country_mapping sample_countries) sample_budget "A"
                  sample_values_A.
Proof.
  exists (nth 0 (budget_rows sample_budget)
                {| budget_code := None; year_values := [] |}),
         [].
  repeat split; try reflexivity. discriminate.
Qed.

Lemma growth_score_is_slope_over_year_positions_witness :
  growth_of (country_mapping sample_countries) sample_budget "A"
  = coef_ (boolean_index (arange (List.length sample_values_A))
                         (valid_mask sample_values_A))
          (boolean_index (map float_of sample_values_A)
                         (valid_mask sample_values_A))
  /\ growth_of (country_mapping sample_countries) sample_budget "A" == 5.
Proof.
  destruct (growth_score_is_slope_over_year_positions
              (country_mapping sample_countries) sample_budget "A"
              sample_values_A sample_A_selected eq_refl)
    as [E Hline].
  - vm_compute. lia.
  - split; [exact E|].
    apply (Hline 0 5).
    intros i v Hi Hv.
    do 11 (destruct i as [|i];
           [injection Hi as <-; try discriminate Hv; reflexivity|]).
    destruct i; discriminate Hi.
Defined.

(** C1 as the specification words it fails: country A of the sample
    reports every second year, 10 more each time, so its valid values have
    slope 10 against the sequential index of the valid years; the source
    regresses on the positions 0, 2, 4, ... and finds 5. *)
Lemma growth_score_not_slope_over_sequential_index :
  selected_values (country_mapping sample_countries) sample_budget "A"
                  sample_values_A
  /\ (6 <= valid_years sample_values_A)%nat
  /\ sequential_index_slope sample_values_A == 10
  /\ growth_of (country_mapping sample_countries) sample_budget "A" == 5
  /\ ~ growth_of (country_mapping sample_countries) sample_budget "A"
       == sequential_index_slope sample_values_A.
Proof.
  split; [exact sample_A_selected|].
  split; [vm_compute; lia|].
  split; [reflexivity|]. split; [reflexivity|].
  intros H. vm_compute in H. discriminate H.
Qed.

(** ** Dataset Normalizer and Strength Scorer *)

Section ScorerFacts.
Variable parse_numeric : string -> option Q.
Variable sqrt : Q -> Q.

Local Abbreviation to_numeric := (to_numeric parse_numeric).
Local Abbreviation coerce_record := (coerce_record parse_numeric).
Local Abbreviation create_strength_score :=
  (create_strength_score parse_numeric sqrt).
Local Abbreviation transform_row := (transform_row sqrt).
Local Abbreviation fit_transform := (fit_transform sqrt).
Local Abbreviation standardize := (standardize sqrt).
Local Abbreviation scale_ := (scale_ sqrt).
Local Abbreviation pipeline := (pipeline parse_numeric sqrt).

Lemma to_numeric_not_str (c : cell) : is_str (to_numeric c) = false.
Proof.
  destruct c as [q|s|]; simpl; trivial. now destruct (parse_numeric s).
Qed.

Lemma to_numeric_idem (c : cell) : to_numeric (to_numeric c) = to_numeric c.
Proof.
  destruct c as [q|s|]; simpl; trivial. now destruct (parse_numeric s).
Qed.

Lemma to_numeric_fixed (c : cell) : is_str c = false -> to_numeric c = c.
Proof. destruct c; simpl; trivial. discriminate. Qed.

Lemma power_columns_coerce (r : CountryRecord) :
  power_columns (coerce_record r) = map to_numeric (power_columns r).
Proof. reflexivity. Qed.

Lemma coerce_record_idem (r : CountryRecord) :
  coerce_record (coerce_record r) = coerce_record r.
Proof.
  unfold coerce_record. simpl. now rewrite !to_numeric_idem.
Qed.

Lemma coerce_record_fixed (r : CountryRecord) :
  Forall (fun c => is_str c = false) (power_columns r) -> coerce_record r = r.
Proof.
  intros H. destruct r. unfold power_columns in H. simpl in H.
  repeat match goal with
         | H : Forall _ (_ :: _) |- _ => inversion_clear H
         end.
  unfold coerce_record. simpl.
  now rewrite !to_numeric_fixed by assumption.
Qed.

Lemma map_coerce_idem (df : CountryTable) :
  map coerce_record (map coerce_record df) = map coerce_record df.
Proof.
  rewrite map_map. apply map_ext. intros r. apply coerce_record_idem.
Qed.

(** *** The float matrix exists for the rows that survive [dropna] *)

Lemma traverse_Forall2 {A B : Type} (f : A -> result B) (l : list A)
  (l' : list B) :
  traverse f l = Ok l' -> Forall2 (fun a b => f a = Ok b) l l'.
Proof.
  revert l'. induction l as [|a l IH]; simpl; intros l' H.
  - injection H as <-. constructor.
  - destruct (f a) as [b|] eqn:Ea; simpl in H; [|discriminate].
    destruct (traverse f l) as [bs|]; simpl in H; [|discriminate].
    injection H as <-. constructor; auto.
Qed.

Lemma traverse_ok {A B : Type} (f : A -> result B) (l : list A) :
  Forall (fun a => exists b, f a = Ok b) l -> exists l', traverse f l = Ok l'.
Proof.
  induction 1 as [|a l [b Hb] _ [bs IH]]; simpl.
  - now exists [].
  - rewrite Hb, IH. simpl. now exists (b :: bs).
Qed.

Lemma cell_float_clean (c : cell) :
  is_str c = false -> negb (isna c) = true -> exists q, cell_float c = Ok q.
Proof. destruct c; simpl; try discriminate. now exists q. Qed.

Lemma row_floats_clean (r : CountryRecord) :
  complete (coerce_record r) = true ->
  exists x, traverse cell_float (power_columns (coerce_record r)) = Ok x.
Proof.
  unfold complete. rewrite forallb_forall. intros H.
  apply traverse_ok, Forall_forall. intros c Hc.
  apply cell_float_clean; [|now apply H].
  rewrite power_columns_coerce in Hc.
  apply in_map_iff in Hc as (c0 & <- & _). apply to_numeric_not_str.
Qed.

Lemma to_matrix_clean (df : CountryTable) :
  exists X, to_matrix (dropna (map coerce_record df)) = Ok X.
Proof.
  apply traverse_ok, Forall_forall. intros r Hr.
  apply filter_In in Hr as [Hr Hc].
  apply in_map_iff in Hr as (r0 & <- & _).
  now apply row_floats_clean.
Qed.

Lemma transform_row_length (X : list (list Q)) (row : list Q) :
  List.length (transform_row X row) = List.length row.
Proof.
  unfold transform_row.
  rewrite length_map, length_combine, length_seq. apply Nat.min_id.
Qed.

Lemma nth_map_combine_seq {B : Type} (g : nat * Q -> B) (d : B)
  (row : list Q) (s j : nat) :
  (j < List.length row)%nat ->
  nth j (map g (combine (seq s (List.length row)) row)) d
  = g ((s + j)%nat, nth j row 0).
Proof.
  revert s j. induction row as [|x row IH]; simpl; intros s j Hj; [lia|].
  destruct j as [|j].
  - now rewrite Nat.add_0_r.
  - rewrite IH by lia. now rewrite Nat.add_succ_r.
Qed.

Lemma nth_transform_row (X : list (list Q)) (row : list Q) (j : nat) :
  (j < List.length row)%nat ->
  nth j (transform_row X row) 0 = standardize (column j X) (nth j row 0).
Proof.
  intros Hj. unfold transform_row.
  now rewrite (nth_map_combine_seq _ 0 row 0 j Hj).
Qed.

(** *** Columns of equal values *)

Lemma Qsum_centred_zero (l : list Q) (c : Q) :
  Forall (fun v => v == c) l ->
  Qsum (map (fun x => (x - c) * (x - c)) l) == 0.
Proof.
  induction 1 as [|v l Hv _ IH]; simpl.
  - reflexivity.
  - rewrite IH, Hv. ring.
Qed.

Lemma Qsum_constant (l : list Q) (c : Q) :
  Forall (fun v => v == c) l -> Qsum l == Qlen l * c.
Proof.
  induction 1 as [|v l Hv _ IH].
  - unfold Qlen. simpl. ring.
  - rewrite Qlen_cons. simpl. rewrite IH, Hv. ring.
Qed.

Lemma Qlen_nonzero {A : Type} (x : A) (l : list A) : ~ Qlen (x :: l) == 0.
Proof.
  intros E. pose proof (Qlen_pos x l) as H. rewrite E in H.
  now apply Qlt_irrefl in H.
Qed.

Lemma mean_constant (l : list Q) (c : Q) :
  l <> [] -> Forall (fun v => v == c) l -> mean l == c.
Proof.
  intros Hne H. unfold mean. rewrite (Qsum_constant l c H).
  destruct l as [|x l]; [congruence|].
  field. apply Qlen_nonzero.
Qed.

Lemma var_constant (l : list Q) (c : Q) :
  l <> [] -> Forall (fun v => v == c) l -> var l == 0.
Proof.
  intros Hne H. unfold var.
  assert (E : Qsum (map (fun x => (x - mean l) * (x - mean l)) l) == 0).
  { apply Qsum_centred_zero.
    eapply Forall_impl; [|exact H].
    intros v Hv. simpl in Hv. now rewrite Hv, (mean_constant l c Hne H). }
  rewrite E. destruct l as [|x l]; [congruence|].
  field. apply Qlen_nonzero.
Qed.

Lemma var_zero_constant (l : list Q) :
  var l == 0 -> Forall (fun v => v == mean l) l.
Proof.
  unfold var. intros H.
  destruct l as [|x l]; [constructor|].
  set (xs := x :: l) in *.
  assert (E : Qsum (map (fun v => (v - mean xs) * (v - mean xs)) xs) == 0).
  { rewrite <- (Qmult_0_l (Qlen xs)), <- H. field. apply Qlen_nonzero. }
  rewrite <- (map_map (fun v => v - mean xs) (fun d => d * d)) in E.
  apply Qsum_squares_zero in E.
  rewrite Forall_map in E.
  eapply Forall_impl; [|exact E].
  intros v Hv. simpl in Hv.
  rewrite <- (Qplus_0_l (mean xs)), <- Hv. ring.
Qed.

Lemma scale_constant (col : list Q) : var col == 0 -> scale_ col = 1.
Proof.
  intros H. unfold scale_. now rewrite (Qeq_eq_bool _ _ H).
Qed.

Lemma scale_spread (col : list Q) :
  ~ var col == 0 -> scale_ col = sqrt (var col).
Proof.
  intros H. unfold scale_.
  destruct (Qeq_bool (var col) 0) eqn:E; trivial.
  apply Qeq_bool_iff in E. contradiction.
Qed.

Lemma var_nonneg (l : list Q) : 0 <= var l.
Proof.
  unfold var. destruct l as [|x l].
  - unfold Qlen. simpl. apply Qle_refl.
  - apply Qle_shift_div_l; [apply Qlen_pos|].
    rewrite Qmult_0_l.
    rewrite <- (map_map (fun v => v - mean (x :: l)) (fun d => d * d)).
    apply Qsum_squares_nonneg.
Qed.

(** The divisor of [standardize] is never 0, for a square root that is
    positive on positive numbers (as the real one and numpy's are). *)
Lemma scale_positive (col : list Q) :
  (forall v, 0 < v -> 0 < sqrt v) -> 0 < scale_ col.
Proof.
  intros Hsqrt. unfold scale_.
  destruct (Qeq_bool (var col) 0) eqn:E; [reflexivity|].
  apply Hsqrt. apply Qeq_bool_neq in E.
  destruct (Qle_lt_or_eq _ _ (var_nonneg col)) as [H|H]; trivial.
  exfalso. apply E. now symmetry.
Qed.

Lemma nth_column (X : list (list Q)) (i j : nat) (row : list Q) :
  nth_error X i = Some row -> In (nth j row 0) (column j X).
Proof.
  intros H. unfold column. apply in_map_iff. exists row. split; trivial.
  eapply nth_error_In; eassumption.
Qed.

(** C8.  In the matrix the scaler returns, the entry of row [i] in column
    [j] is 0 when the values of that column are all the same, which is
    when its population variance is 0 (the divisor is then the scaling
    factor 1, so the entry is defined); in a column whose variance is
    not 0 it is the value minus the column mean, divided by the square
    root of the population variance, the mean of the squared deviations
    over all N rows. *)
Theorem standardize_column (X Z : list (list Q)) (i j : nat) (row : list Q) :
  fit_transform X = Ok Z ->
  nth_error X i = Some row ->
  (j < List.length row)%nat ->
  let col := column j X in
  let x := nth j row 0 in
  let z := nth j (nth i Z []) 0 in
  ((forall v, In v col -> v == x) <-> var col == 0)
  /\ (var col == 0 -> scale_ col = 1 /\ z == 0)
  /\ (~ var col == 0 ->
      z == (x - Qsum col / Qlen col)
           / sqrt (Qsum (map (fun v => (v - Qsum col / Qlen col)
                                       * (v - Qsum col / Qlen col)) col)
                   / Qlen col)).
Proof.
  intros Hfit Hrow Hj col x z.
  assert (HZ : Z = map (transform_row X) X).
  { unfold fit_transform in Hfit.
    destruct X; [discriminate | now injection Hfit]. }
  assert (Hz : z = standardize col x).
  { unfold z, col, x. rewrite HZ.
    rewrite <- (nth_transform_row X row j Hj). f_equal.
    change [] with (transform_row X []).
    rewrite map_nth. f_equal. now apply nth_error_nth. }
  assert (Hx : In x col) by (eapply nth_column; eassumption).
  assert (Hne : col <> []) by (intros E; rewrite E in Hx; contradiction).
  assert (Hconst : var col == 0 -> forall v, In v col -> v == x).
  { intros Hv v Hin. apply var_zero_constant in Hv.
    rewrite Forall_forall in Hv.
    now rewrite (Hv v Hin), (Hv x Hx). }
  split; [split; [|exact Hconst]|split].
  - intros Hall. apply (var_constant col x Hne).
    now apply Forall_forall.
  - intros Hv. split; [now apply scale_constant|].
    rewrite Hz. unfold standardize.
    rewrite (scale_constant col Hv).
    assert (Em : mean col == x).
    { apply mean_constant; trivial. apply Forall_forall. now apply Hconst. }
    rewrite Em. field.
  - intros Hv. rewrite Hz. unfold standardize.
    rewrite (scale_spread col Hv). reflexivity.
Qed.

(** *** The frame the scorer returns *)



Lemma traverse_length {A B : Type} (f : A -> result B) (l : list A)
  (l' : list B) :
  traverse f l = Ok l' -> List.length l' = List.length l.
Proof.
  intros H. symmetry. eapply Forall2_length, traverse_Forall2, H.
Qed.


Lemma score_rows_keys (df_clean : CountryTable) (scaled_data : list (list Q)) :
  List.length scaled_data = List.length df_clean ->
  map (fun o => (sr_country o, sr_pwr_index o))
      (score_rows df_clean scaled_data)
  = map (fun r => (country r, pwr_index r)) df_clean.
Proof.
  revert scaled_data.
  induction df_clean as [|r df IH]; intros [|z zs]; simpl; try discriminate;
    trivial.
  intros E. injection E as E. unfold score_rows in IH.
  now rewrite IH.
Qed.

(** What [create_strength_score] returns, step by step. *)
Lemma create_strength_score_returns (df : CountryTable)
  (out : list ScoreRow) :
  snd (create_strength_score df) = Ok out ->
  exists X,
    to_matrix (dropna (map coerce_record df)) = Ok X
    /\ X <> []
    /\ out = sort_values_desc (fun r => Some (strength_score r))
              (score_rows (dropna (map coerce_record df))
                          (map (transform_row X) X)).
Proof.
  unfold create_strength_score. simpl.
  destruct (to_matrix_clean df) as [X HX]. rewrite HX. simpl.
  intros H. exists X. split; trivial.
  destruct X as [|x X]; [discriminate|].
  split; [discriminate|]. simpl in H. now injection H as <-.
Qed.

(** C3 (as the code has it).  When no country survives the complete-case
    filter, the scorer does not return an empty frame: the scaler refuses
    the matrix without rows and the call raises [ValueError] (which the
    [try] around the whole prediction reports); the source frame has been
    coerced by then. *)
Theorem create_strength_score_raises_on_no_survivor (df : CountryTable) :
  dropna (map coerce_record df) = [] ->
  create_strength_score df = (map coerce_record df, Raise ValueError)
  /\ forall defense_budget target_year,
       snd (pipeline df defense_budget target_year) = Raise ValueError.
Proof.
  intros H. unfold pipeline, create_strength_score.
  rewrite H. split; reflexivity.
Qed.


(** *** What the calls write to the frames they are given *)

(** C4 (as the code has it).  The ranker assigns the column
    [projection_score] to the frame it is given, leaving the rows of that
    frame (every other column, and the row order) as they were, and
    returns another, sorted frame.  The scorer assigns the coerced
    indicator columns to the source table: a cell that holds a string is
    replaced by the number it parses to or by null, a cell that holds a
    number or null and the columns [country], [country_code] and
    [pwr_index] stay as they were; a table without string cells is left
    unchanged. *)
Theorem components_write_to_their_input (df : Frame) (target_year : Z)
  (ms : CountryTable) :
  let df' := fst (predict_future_ranking df target_year) in
  let ms' := fst (create_strength_score ms) in
  rows df' = rows df
  /\ projection_score df'
     = Some (map (score_formula (fst (weights target_year))
                                (snd (weights target_year)))
                 (rows df))
  /\ Forall2 (fun r r' =>
                country r' = country r
                /\ country_code r' = country_code r
                /\ pwr_index r' = pwr_index r
                /\ power_columns r' = map to_numeric (power_columns r))
             ms ms'
  /\ (forall c, is_str c = false -> to_numeric c = c)
  /\ (forall c, is_str c = true -> to_numeric c <> c)
  /\ (Forall (fun r => Forall (fun c => is_str c = false) (power_columns r)) ms
      -> ms' = ms).
Proof.
  cbv zeta. unfold predict_future_ranking, create_strength_score.
  cbn [fst snd rows projection_score].
  split; [reflexivity|]. split; [|split; [|split; [|split]]].
  - reflexivity.
  - rewrite <- (map_id ms) at 1. apply Forall2_map_same.
    intros r _. repeat split.
  - apply to_numeric_fixed.
  - intros c Hc E. rewrite <- E, to_numeric_not_str in Hc. discriminate.
  - intros H. rewrite <- (map_id ms) at 2. apply map_ext_in.
    intros r Hr. apply coerce_record_fixed.
    rewrite Forall_forall in H. now apply H.
Qed.

(** *** Running the driver again *)

(** C10.  A second run of the driver, on the source table as the first run
    left it and with the same budget table and target year, returns (or
    raises) exactly what the first run did, and leaves the source table
    as the first run left it. *)
Theorem pipeline_twice_same_output (military_strength : CountryTable)
  (defense_budget : BudgetTable) (target_year : Z) :
  let run1 := pipeline military_strength defense_budget target_year in
  let run2 := pipeline (fst run1) defense_budget target_year in
  snd run2 = snd run1 /\ fst run2 = fst run1.
Proof.
  cbv zeta. unfold pipeline, create_strength_score.
  cbn [fst snd]. rewrite !map_coerce_idem. split; reflexivity.
Qed.

End ScorerFacts.

(** ** The engine on the sample inputs *)

Lemma create_strength_score_raises_on_no_survivor_witness :
  create_strength_score parse_decimal sqrt_approx sample_incomplete
  = (map (coerce_record parse_decimal) sample_incomplete, Raise ValueError)
  /\ forall defense_budget target_year,
       snd (pipeline parse_decimal sqrt_approx sample_incomplete
                     defense_budget target_year)
       = Raise ValueError.
Proof.
  apply (create_strength_score_raises_on_no_survivor
           parse_decimal sqrt_approx sample_incomplete).
  reflexivity.
Defined.

(** C3 as the specification words it fails: the only country of
    [sample_incomplete] has a population that does not parse, no row is
    left, and the scorer raises instead of returning the empty frame. *)
Lemma create_strength_score_no_empty_frame :
  dropna (map (coerce_record parse_decimal) sample_incomplete) = []
  /\ snd (create_strength_score parse_decimal sqrt_approx sample_incomplete)
     = Raise ValueError
  /\ snd (create_strength_score parse_decimal sqrt_approx sample_incomplete)
     <> Ok [].
Proof.
  split; [reflexivity|]. split; [reflexivity|]. discriminate.
Qed.

Lemma components_write_to_their_input_witness :
  fst (create_strength_score parse_decimal sqrt_approx sample_numeric)
  = sample_numeric.
Proof.
  apply (components_write_to_their_input
           parse_decimal sqrt_approx sample_frame 2047 sample_numeric).
  repeat constructor.
Defined.

(** C4 as the specification words it fails: after the ranker has run on
    [sample_frame], the frame has a column [projection_score] it did not
    have; after the scorer has run on [sample_countries], the defense
    budget of A is the number 900 and no longer the string, and the
    population of C is null. *)
Lemma components_do_mutate_their_input :
  fst (predict_future_ranking sample_frame 2047) <> sample_frame
  /\ option_map (map (option_map Qred))
       (projection_score (fst (predict_future_ranking sample_frame 2047)))
     = Some [Some (19 # 100); Some (24 # 25)]
  /\ fst (create_strength_score parse_decimal sqrt_approx sample_countries)
     <> sample_countries
  /\ map national_annual_defense_budgets
         (fst (create_strength_score parse_decimal sqrt_approx
                                     sample_countries))
     = [num 900; num 100; num 100; num 100]
  /\ map national_annual_defense_budgets sample_countries
     = [CStr "900"; num 100; num 100; num 100].
Proof.
  split; [discriminate|]. split; [reflexivity|].
  split; [discriminate|]. split; reflexivity.
Qed.

Lemma sqrt_approx_positive (v : Q) : 0 < v -> 0 < sqrt_approx v.
Proof.
  destruct v as [n d]. unfold Qlt, sqrt_approx. simpl.
  rewrite !Z.mul_1_r. intros Hn.
  apply Z.sqrt_pos. nia.
Qed.

Lemma sample_strength_df_returned :
  snd (create_strength_score parse_decimal sqrt_approx sample_countries)
  = Ok sample_strength_df.
Proof. vm_compute. reflexivity. Qed.



Lemma growth_score_normalized_min_max_witness :
  Forall (fun r => growth_score_normalized r == (growth_score r - 0) / (5 - 0))
         (analyze_growth_trajectory sample_countries sample_strength_df
                                    sample_budget).
Proof.
  apply Forall_forall. intros r Hr.
  apply (proj1 (proj2 (growth_score_normalized_min_max
                         sample_countries sample_strength_df sample_budget))
               0 5); trivial.
  - split.
    + eexists. split; [right; left; reflexivity | vm_compute; reflexivity].
    + intros g Hg. vm_compute in Hg.
      destruct Hg as [<-|[<-|[]]]; vm_compute; intro H; discriminate H.
  - split.
    + eexists. split; [left; reflexivity | vm_compute; reflexivity].
    + intros g Hg. vm_compute in Hg.
      destruct Hg as [<-|[<-|[]]]; vm_compute; intro H; discriminate H.
  - intro H. discriminate H.
Defined.

Lemma standardize_column_witness :
  let Z := map (transform_row sqrt_approx sample_matrix) sample_matrix in
  nth 0 (nth 0 Z []) 0 == 0 /\ nth 1 (nth 0 Z []) 0 == - (1).
Proof.
  intros Z. split.
  - apply (proj1 (proj2 (standardize_column
                           sqrt_approx sample_matrix Z 0 0 [1; 5]
                           eq_refl eq_refl (Nat.lt_0_succ 1)))).
    vm_compute. reflexivity.
  - rewrite (proj2 (proj2 (standardize_column
                             sqrt_approx sample_matrix Z 0 1 [1; 5]
                             eq_refl eq_refl (Nat.lt_succ_diag_r 1)))).
    + vm_compute. reflexivity.
    + intro H. vm_compute in H. discriminate H.
Defined.


(** The sample, end to end: C and D are dropped by the scorer, A has the
    steeper budget and is ranked first for 2047, and a second run on the
    table the first run left behind gives the same ranking. *)
Example pipeline_on_sample :
  let run1 := pipeline parse_decimal sqrt_approx sample_countries
                       sample_budget 2047 in
  let run2 := pipeline parse_decimal sqrt_approx (fst run1)
                       sample_budget 2047 in
  match snd run1 with
  | Ok ranking => map (fun r => sr_country (base r)) (rows ranking)
  | Raise _ => []
  end = ["A"; "B"]
  /\ snd run2 = snd run1.
Proof. split; vm_compute; reflexivity. Qed.

(** * Further properties of the engine *)

(** ** Sums over a matrix *)

Lemma Qsum_perm (l l' : list Q) : Permutation l l' -> Qsum l == Qsum l'.
Proof.
  induction 1 as [|x l l' _ IH|x y l|l l' l'' _ IH1 _ IH2]; simpl.
  - reflexivity.
  - now rewrite IH.
  - ring.
  - now rewrite IH1.
Qed.

Lemma Qsum_map_ext {A : Type} (f g : A -> Q) (l : list A) :
  (forall a, In a l -> f a == g a) -> Qsum (map f l) == Qsum (map g l).
Proof.
  induction l as [|a l IH]; simpl; intros H.
  - reflexivity.
  - rewrite (H a) by now left. rewrite IH; [reflexivity|].
    intros b Hb. apply H. now right.
Qed.

Lemma Qsum_map_plus {A : Type} (f g : A -> Q) (l : list A) :
  Qsum (map (fun a => f a + g a) l) == Qsum (map f l) + Qsum (map g l).
Proof.
  induction l as [|a l IH]; simpl.
  - ring.
  - rewrite IH. ring.
Qed.

Lemma Qsum_map_zero {A : Type} (l : list A) : Qsum (map (fun _ => 0) l) == 0.
Proof.
  induction l as [|a l IH]; simpl.
  - reflexivity.
  - rewrite IH. ring.
Qed.

Lemma map_nth_seq (row : list Q) :
  map (fun j => nth j row 0) (seq 0 (List.length row)) = row.
Proof.
  induction row as [|x row IH]; simpl; trivial.
  f_equal. rewrite <- seq_shift, map_map. exact IH.
Qed.

(** The sum of the row sums of a rectangular matrix is the sum of its
    column sums. *)
Lemma Qsum_rows_columns (n : nat) (M : list (list Q)) :
  Forall (fun row => List.length row = n) M ->
  Qsum (map Qsum M) == Qsum (map (fun j => Qsum (column j M)) (seq 0 n)).
Proof.
  induction 1 as [|row M Hrow _ IH]; simpl.
  - now rewrite Qsum_map_zero.
  - rewrite (Qsum_map_plus (fun j => nth j row 0)
                           (fun j => Qsum (column j M))).
    rewrite <- IH, <- Hrow, map_nth_seq. reflexivity.
Qed.

Lemma Qsum_centred_over (l : list Q) (m s : Q) :
  Qsum (map (fun x => (x - m) / s) l) == (Qsum l - Qlen l * m) / s.
Proof.
  induction l as [|x l IH].
  - unfold Qlen, Qdiv. simpl. ring.
  - rewrite Qlen_cons. simpl. rewrite IH. unfold Qdiv. ring.
Qed.

Lemma Qsum_minus_mean (l : list Q) : Qsum l - Qlen l * mean l == 0.
Proof.
  unfold mean. destruct l as [|x l].
  - unfold Qlen. simpl. ring.
  - field. apply Qlen_nonzero.
Qed.

(** ** The frame of strength scores *)

Section ScorerOrder.
Variable parse_numeric : string -> option Q.
Variable sqrt : Q -> Q.

Lemma standardized_column_sum (col : list Q) :
  Qsum (map (standardize sqrt col) col) == 0.
Proof.
  unfold standardize. rewrite Qsum_centred_over, Qsum_minus_mean.
  unfold Qdiv. ring.
Qed.

Lemma column_transform (X : list (list Q)) (n j : nat) :
  Forall (fun row => List.length row = n) X -> (j < n)%nat ->
  forall M, incl M X ->
    column j (map (transform_row sqrt X) M)
    = map (standardize sqrt (column j X)) (column j M).
Proof.
  intros Hrect Hj M. induction M as [|row M IH]; simpl; intros Hincl; trivial.
  rewrite IH by (intros r Hr; apply Hincl; now right).
  f_equal. apply nth_transform_row.
  rewrite Forall_forall in Hrect. rewrite (Hrect row); trivial.
  apply Hincl. now left.
Qed.

Lemma standardized_matrix_sum (X : list (list Q)) (n : nat) :
  Forall (fun row => List.length row = n) X ->
  Qsum (map Qsum (map (transform_row sqrt X) X)) == 0.
Proof.
  intros Hrect.
  rewrite (Qsum_rows_columns n).
  - rewrite <- (Qsum_map_zero (seq 0 n)).
    apply Qsum_map_ext. intros j Hj. apply in_seq in Hj.
    rewrite (column_transform X n j Hrect) by (try apply incl_refl; lia).
    apply standardized_column_sum.
  - apply Forall_forall. intros z Hz.
    apply in_map_iff in Hz as (row & <- & Hrow).
    rewrite transform_row_length.
    rewrite Forall_forall in Hrect. now apply Hrect.
Qed.

Lemma to_matrix_width (df : CountryTable) (X : list (list Q)) :
  to_matrix df = Ok X -> Forall (fun row => List.length row = 7%nat) X.
Proof.
  intros H. apply traverse_Forall2 in H.
  induction H as [|r x df X Hrx _ IH]; constructor; trivial.
  now rewrite (traverse_length _ _ _ Hrx).
Qed.

Lemma score_rows_scores (df_clean : CountryTable)
  (scaled_data : list (list Q)) :
  List.length scaled_data = List.length df_clean ->
  map strength_score (score_rows df_clean scaled_data)
  = map mean scaled_data.
Proof.
  revert scaled_data.
  induction df_clean as [|r df IH]; intros [|z zs]; simpl; try discriminate;
    trivial.
  intros E. injection E as E. unfold score_rows in IH. now rewrite IH.
Qed.

Lemma Qsum_means_of_seven (M : list (list Q)) :
  Forall (fun z => List.length z = 7%nat) M ->
  Qsum (map mean M) == Qsum (map Qsum M) / 7.
Proof.
  induction 1 as [|z M Hz _ IH]; simpl.
  - reflexivity.
  - rewrite IH. unfold mean, Qlen. rewrite Hz.
    change (inject_Z (Z.of_nat 7)) with 7. unfold Qdiv. ring.
Qed.

Lemma strength_order_transitive (a b c : ScoreRow) :
  strength_score b <= strength_score a ->
  strength_score c <= strength_score b ->
  strength_score c <= strength_score a.
Proof. intros H1 H2. eapply Qle_trans; eassumption. Qed.

Lemma Sorted_by_strength (l : list ScoreRow) :
  Sorted (before (fun r => Some (strength_score r))) l ->
  Sorted (fun a b => strength_score b <= strength_score a) l.
Proof.
  induction 1 as [|a l _ IH Hhd]; constructor; trivial.
  destruct Hhd as [|b l Hab]; constructor.
  unfold before in Hab. simpl in Hab. now apply Qle_bool_iff.
Qed.

(** X1.  The frame the scorer returns is in decreasing order of
    [strength_score]: every row scores at least as much as every row
    after it. *)
Theorem strength_frame_is_ranked (df : CountryTable) (out : list ScoreRow) :
  snd (create_strength_score parse_numeric sqrt df) = Ok out ->
  StronglySorted (fun a b => strength_score b <= strength_score a) out.
Proof.
  intros H.
  destruct (create_strength_score_returns _ _ _ _ H) as (X & _ & _ & ->).
  apply Sorted_StronglySorted.
  - intros a b c. apply strength_order_transitive.
  - apply Sorted_by_strength, sort_values_desc_sorted.
Qed.

(** X2.  The strength scores of the returned frame add up to 0: each
    standardized column is centred on its mean, so the scores only say how
    a country stands relative to the other surviving countries. *)
Theorem strength_scores_sum_to_zero (df : CountryTable)
  (out : list ScoreRow) :
  snd (create_strength_score parse_numeric sqrt df) = Ok out ->
  Qsum (map strength_score out) == 0.
Proof.
  intros H.
  destruct (create_strength_score_returns _ _ _ _ H) as (X & HX & _ & ->).
  rewrite (Qsum_perm _ _ (Permutation_map _ (sort_values_desc_perm _ _))).
  pose proof (to_matrix_width _ _ HX) as Hrect.
  rewrite score_rows_scores
    by (rewrite length_map; now apply traverse_length in HX).
  transitivity (Qsum (map Qsum (map (transform_row sqrt X) X)) / 7).
  - apply Qsum_means_of_seven.
    apply Forall_forall. intros z Hz.
    apply in_map_iff in Hz as (row & <- & Hrow).
    rewrite transform_row_length.
    rewrite Forall_forall in Hrect. now apply Hrect.
  - rewrite (standardized_matrix_sum X 7 Hrect). reflexivity.
Qed.

End ScorerOrder.

Lemma strength_frame_is_ranked_witness :
  StronglySorted (fun a b => strength_score b <= strength_score a)
                 sample_strength_df.
Proof.
  apply (strength_frame_is_ranked parse_decimal sqrt_approx sample_countries).
  exact sample_strength_df_returned.
Defined.

Lemma strength_scores_sum_to_zero_witness :
  Qsum (map strength_score sample_strength_df) == 0.
Proof.
  apply (strength_scores_sum_to_zero parse_decimal sqrt_approx
                                     sample_countries).
  exact sample_strength_df_returned.
Defined.

(** ** The normalized growth column *)

Lemma normalize_rows (ms : CountryTable) (strength_df : list ScoreRow)
  (budget_df : BudgetTable) (mn mx : Q) :
  let out := analyze_growth_trajectory ms strength_df budget_df in
  is_min mn (map growth_score out) -> is_max mx (map growth_score out) ->
  forall r, In r out ->
    (mx == mn -> growth_score_normalized r == 0)
    /\ (~ mx == mn ->
        growth_score_normalized r == (growth_score r - mn) / (mx - mn)).
Proof.
  intros out Hmin Hmax.
  destruct (analyze_growth_trajectory_columns ms strength_df budget_df)
    as (_ & Hg & Hn).
  fold out in Hg, Hn.
  apply (Forall2_map_same_inv
           (fun g n => (mx == mn -> n == 0)
                       /\ (~ mx == mn -> n == (g - mn) / (mx - mn)))).
  rewrite Hn, <- Hg. now apply normalize_spec.
Qed.

Lemma column_has_min_max (l : list Q) :
  l <> [] -> exists mn mx, is_min mn l /\ is_max mx l.
Proof.
  destruct l as [|x l]; [congruence|]. intros _.
  exists (fold_left Qmin l x), (fold_left Qmax l x).
  split; [apply fold_left_Qmin_spec | apply fold_left_Qmax_spec].
Qed.

(** X3.  Every normalized growth score lies between 0 and 1; and when two
    countries of the frame differ in growth score, a country with the
    greatest growth score has exactly 1 and one with the least has
    exactly 0. *)
Theorem normalized_growth_spans_unit_interval (ms : CountryTable)
  (strength_df : list ScoreRow) (budget_df : BudgetTable) :
  let out := analyze_growth_trajectory ms strength_df budget_df in
  (forall r, In r out ->
     0 <= growth_score_normalized r /\ growth_score_normalized r <= 1)
  /\ ((exists r r', In r out /\ In r' out
                    /\ ~ growth_score r == growth_score r') ->
      (exists r, In r out /\ growth_score_normalized r == 1
                 /\ forall r', In r' out -> growth_score r' <= growth_score r)
      /\ (exists r, In r out /\ growth_score_normalized r == 0
                    /\ forall r', In r' out ->
                                  growth_score r <= growth_score r')).
Proof.
  intros out.
  assert (Hcases : out = [] \/
            exists mn mx, is_min mn (map growth_score out)
                          /\ is_max mx (map growth_score out)).
  { destruct out as [|r0 out'] eqn:E; [now left | right].
    apply column_has_min_max. discriminate. }
  split.
  - intros r Hr.
    destruct Hcases as [E|(mn & mx & Hmin & Hmax)].
    { rewrite E in Hr. contradiction. }
    destruct (normalize_rows ms strength_df budget_df mn mx Hmin Hmax r Hr)
      as [Heq Hne].
    pose proof (is_min_le_is_max _ _ _ Hmin Hmax) as Hle.
    destruct (Qeq_dec mx mn) as [E|E].
    + rewrite (Heq E). split; [apply Qle_refl | discriminate].
    + assert (Hlt : 0 < mx - mn).
      { rewrite <- (Qplus_opp_r mn). apply Qplus_lt_l.
        destruct (Qle_lt_or_eq _ _ Hle) as [H|H]; trivial.
        exfalso. apply E. now symmetry. }
      rewrite (Hne E).
      destruct Hmin as [_ Hlo], Hmax as [_ Hhi].
      assert (Hg : In (growth_score r) (map growth_score out))
        by now apply in_map.
      split.
      * apply Qle_shift_div_l; trivial. rewrite Qmult_0_l.
        rewrite <- (Qplus_opp_r mn). apply Qplus_le_l. now apply Hlo.
      * apply Qle_shift_div_r; trivial. rewrite Qmult_1_l.
        apply Qplus_le_l. now apply Hhi.
  - intros (r1 & r2 & Hr1 & Hr2 & Hdiff).
    destruct Hcases as [E|(mn & mx & Hmin & Hmax)].
    { rewrite E in Hr1. contradiction. }
    assert (E : ~ mx == mn).
    { intros E. apply Hdiff.
      destruct Hmin as [_ Hlo], Hmax as [_ Hhi].
      assert (H1 : In (growth_score r1) (map growth_score out))
        by now apply in_map.
      assert (H2 : In (growth_score r2) (map growth_score out))
        by now apply in_map.
      apply Qle_antisym.
      - eapply Qle_trans; [apply Hhi, H1|]. rewrite E. apply Hlo, H2.
      - eapply Qle_trans; [apply Hhi, H2|]. rewrite E. apply Hlo, H1. }
    assert (Hnz : ~ mx - mn == 0).
    { intros H. apply E. rewrite <- (Qplus_0_l mn), <- H. ring. }
    pose proof (normalize_rows ms strength_df budget_df mn mx Hmin Hmax)
      as Hrows.
    destruct Hmin as [(g & Hg & Eg) Hlo], Hmax as [(g' & Hg' & Eg') Hhi].
    apply in_map_iff in Hg as (rmin & <- & Hrmin).
    apply in_map_iff in Hg' as (rmax & <- & Hrmax).
    split.
    + exists rmax. split; trivial. split.
      * rewrite (proj2 (Hrows rmax Hrmax) E), Eg'. now field.
      * intros r' Hr'. rewrite Eg'. apply Hhi. now apply in_map.
    + exists rmin. split; trivial. split.
      * rewrite (proj2 (Hrows rmin Hrmin) E), Eg. now field.
      * intros r' Hr'. rewrite Eg. apply Hlo. now apply in_map.
Qed.

(** ** A string in a year column *)

Lemma growth_of_object_column (mapping : list (string * option string))
  (budget_df : BudgetTable) (c : string) :
  existsb (object_dtype budget_df) (years_of budget_df) = true ->
  growth_of mapping budget_df c = 0.
Proof.
  intros Hobj. unfold growth_of, growth_try.
  destruct (truthy (dict_get mapping c)); trivial.
  destruct (filter _ (budget_rows budget_df)); trivial.
  destruct (years_of budget_df) eqn:Hy; trivial.
  unfold valid_indices. now rewrite Hobj.
Qed.

(** X4.  When any column of the years 2000-2020 of the budget frame holds
    a string, in whatever row, the regression is reached by no country:
    every country of the frame gets growth score 0 and normalized growth
    0. *)
Theorem string_in_year_column_zeroes_all_growth (ms : CountryTable)
  (strength_df : list ScoreRow) (budget_df : BudgetTable) :
  existsb (object_dtype budget_df) (years_of budget_df) = true ->
  Forall (fun r => growth_score r = 0 /\ growth_score_normalized r == 0)
         (analyze_growth_trajectory ms strength_df budget_df).
Proof.
  intros Hobj. apply Forall_forall.
  destruct (analyze_growth_trajectory_columns ms strength_df budget_df)
    as (_ & Hg & _).
  set (out := analyze_growth_trajectory ms strength_df budget_df) in *.
  assert (Hzero : forall r, In r out -> growth_score r = 0).
  { intros r Hr.
    assert (Hin : In (growth_score r) (map growth_score out))
      by now apply in_map.
    rewrite Hg in Hin. apply in_map_iff in Hin as (s & <- & _).
    now apply growth_of_object_column. }
  intros r Hr. split; [now apply Hzero|].
  assert (H0 : forall g, In g (map growth_score out) -> g = 0).
  { intros g Hg0. apply in_map_iff in Hg0 as (r' & <- & Hr').
    now apply Hzero. }
  assert (Hex : exists g, In g (map growth_score out) /\ g == 0).
  { exists (growth_score r). split; [now apply in_map|].
    now rewrite (Hzero r Hr). }
  refine (proj1 (normalize_rows ms strength_df budget_df 0 0 _ _ r Hr) _).
  - split; trivial. intros g Hg0. rewrite (H0 g Hg0). apply Qle_refl.
  - split; trivial. intros g Hg0. rewrite (H0 g Hg0). apply Qle_refl.
  - reflexivity.
Qed.

Lemma string_in_year_column_zeroes_all_growth_witness :
  Forall (fun r => growth_score r = 0 /\ growth_score_normalized r == 0)
         (analyze_growth_trajectory sample_countries sample_strength_df
                                    sample_budget_object).
Proof.
  apply (string_in_year_column_zeroes_all_growth
           sample_countries sample_strength_df sample_budget_object).
  reflexivity.
Defined.

(** ** The country-code lookup *)

Lemma find_app_skip {A : Type} (f : A -> bool) (l1 l2 : list A) :
  (forall a, In a l1 -> f a = false) -> find f (l1 ++ l2) = find f l2.
Proof.
  induction l1 as [|x l1 IH]; simpl; intros H; trivial.
  rewrite (H x) by now left. apply IH. intros a Ha. apply H. now right.
Qed.

(** X5.  When several rows of the source table carry the same country
    name, the lookup gives the code of the last of them. *)
Theorem country_code_of_last_row (before_rows after_rows : CountryTable)
  (r : CountryRecord) :
  (forall r', In r' after_rows -> country r' <> country r) ->
  dict_get (country_mapping (before_rows ++ r :: after_rows)%list) (country r)
  = Some (country_code r).
Proof.
  intros Hafter. unfold dict_get, country_mapping.
  rewrite map_app. simpl. rewrite rev_app_distr. simpl.
  rewrite <- app_assoc. simpl.
  rewrite find_app_skip.
  - simpl. now rewrite String.eqb_refl.
  - intros [k v] Hin. apply In_rev in Hin.
    apply in_map_iff in Hin as (r' & E & Hr'). injection E as <- _.
    simpl. apply String.eqb_neq. now apply Hafter.
Qed.

(** In this table country B appears twice, the second time without a
    code. *)
Lemma country_code_of_last_row_witness :
  dict_get (country_mapping
              (sample_numeric
               ++ {| country := "B"; country_code := None;
                     pwr_index := None;
                     total_national_populations := CNull;
                     active_service_military_manpower := CNull;
                     total_military_aircraft_strength := CNull;
                     total_combat_tank_strength := CNull;
                     navy_strength := CNull;
                     national_annual_defense_budgets := CNull;
                     purchasing_power_parities := CNull |}
               :: sample_incomplete)%list)
           "B"
  = Some None.
Proof.
  apply (country_code_of_last_row sample_numeric sample_incomplete).
  intros r' [<-|[]]. discriminate.
Defined.

(** ** Units of the budget series *)

Lemma boolean_index_map {A B : Type} (f : A -> B) (a : list A)
  (mask : list bool) :
  boolean_index (map f a) mask = map f (boolean_index a mask).
Proof.
  revert mask. induction a as [|x a IH]; intros [|b mask]; trivial.
  cbn [map]. rewrite !boolean_index_cons. destruct b; simpl; now rewrite IH.
Qed.

Lemma Qsum_affine (k c : Q) (y : list Q) :
  Qsum (map (fun v => k * v + c) y) == k * Qsum y + Qlen y * c.
Proof.
  induction y as [|v y IH].
  - unfold Qlen. simpl. ring.
  - rewrite Qlen_cons. simpl. rewrite IH. ring.
Qed.

Lemma mean_affine (k c : Q) (y : list Q) :
  y <> [] -> mean (map (fun v => k * v + c) y) == k * mean y + c.
Proof.
  intros Hne. unfold mean. rewrite Qsum_affine.
  assert (E : Qlen (map (fun v => k * v + c) y) == Qlen y).
  { unfold Qlen. now rewrite length_map. }
  rewrite E. destruct y as [|v y]; [congruence|].
  field. apply Qlen_nonzero.
Qed.

Lemma centred_products_affine (k c m m' : Q) (xc y : list Q) :
  m' == k * m + c ->
  Qsum (map (fun p => fst p * snd p)
            (combine xc (map (fun v => v - m')
                             (map (fun v => k * v + c) y))))
  == k * Qsum (map (fun p => fst p * snd p)
                   (combine xc (map (fun v => v - m) y))).
Proof.
  intros Hm. revert y. induction xc as [|x xc IH]; intros [|v y]; simpl;
    try ring.
  rewrite IH, Hm. ring.
Qed.

Lemma coef_affine (k c : Q) (X y : list Q) :
  coef_ X (map (fun v => k * v + c) y) == k * coef_ X y.
Proof.
  unfold coef_. destruct y as [|v y].
  - simpl. rewrite !combine_nil. simpl. unfold Qdiv. ring.
  - rewrite (centred_products_affine k c (mean (v :: y))).
    + unfold Qdiv. ring.
    + apply mean_affine. discriminate.
Qed.

(** X6.  The growth score follows the unit of the budget series and
    ignores a constant offset: for values [k * v + c] in place of [v], with
    the same years missing, the score is [k] times what it was. *)
Theorem trend_scales_with_the_unit (k c : Q) (values : list Q)
  (mask : list bool) :
  trend (map (fun v => k * v + c) values) mask == k * trend values mask.
Proof.
  unfold trend. destruct (5 <? count_true mask)%nat.
  - rewrite length_map, boolean_index_map. apply coef_affine.
  - ring.
Qed.

(** ** Dominated rows *)

From Stdlib Require Import Lqa.

(** X7.  Whatever the target year, a country that is at least as strong,
    grows at least as fast and has a power index at most as large (a lower
    index being better) as another gets a projection score at least as
    large. *)
Theorem dominating_row_scores_at_least (target_year : Z) (r1 r2 : GrowthRow)
  (p1 p2 : Q) :
  sr_pwr_index (base r1) = Some p1 ->
  sr_pwr_index (base r2) = Some p2 ->
  strength_score (base r2) <= strength_score (base r1) ->
  growth_score_normalized r2 <= growth_score_normalized r1 ->
  p1 <= p2 ->
  exists s1 s2,
    projection (weights target_year) r1 = Some s1
    /\ projection (weights target_year) r2 = Some s2
    /\ s2 <= s1.
Proof.
  intros H1 H2 Hs Hg Hp. unfold projection. rewrite H1, H2.
  do 2 eexists. split; [reflexivity|]. split; [reflexivity|].
  unfold weights. destruct (10 <? target_year - current_year)%Z;
    cbn [fst snd]; lra.
Qed.

Lemma dominating_row_scores_at_least_witness :
  exists s1 s2,
    projection (weights 2047) (nth 1 (rows sample_frame)
                                   (nth 0 (rows sample_frame)
                                        {| base := {| scaled := [];
                                                      strength_score := 0;
                                                      sr_country := "";
                                                      sr_pwr_index := None |};
                                           growth_score := 0;
                                           growth_score_normalized := 0 |}))
    = Some s1
    /\ projection (weights 2047) (nth 0 (rows sample_frame)
                                      (nth 1 (rows sample_frame)
                                           {| base := {| scaled := [];
                                                         strength_score := 0;
                                                         sr_country := "";
                                                         sr_pwr_index := None |};
                                              growth_score := 0;
                                              growth_score_normalized := 0 |}))
       = Some s2
    /\ s2 <= s1.
Proof.
  apply (dominating_row_scores_at_least 2047 _ _ (1 # 5) (3 # 10));
    try reflexivity; vm_compute; intro H; discriminate H.
Defined.

(** ** The driver, from the source table to the ranking *)

Section DriverFacts.
Variable parse_numeric : string -> option Q.
Variable sqrt : Q -> Q.

Lemma ranking_rows_permutation (df : Frame) (target_year : Z) :
  Permutation (rows (snd (predict_future_ranking df target_year))) (rows df).
Proof.
  unfold predict_future_ranking. cbn [snd rows].
  eapply perm_trans.
  - apply Permutation_map, sort_values_desc_perm.
  - rewrite map_fst_combine_map. apply Permutation_refl.
Qed.

Lemma ranking_column_length (df : Frame) (target_year : Z) :
  option_map (@List.length _)
             (projection_score (snd (predict_future_ranking df target_year)))
  = Some (List.length (rows df)).
Proof.
  unfold predict_future_ranking. cbn [snd projection_score option_map].
  now rewrite length_map, sort_values_desc_length, length_combine,
    length_map, Nat.min_id.
Qed.

(** X8.  The driver returns a ranking exactly when some country has all
    seven indicators; the ranking then lists the countries with all seven
    indicators, each as often as the source table has it, and no other,
    with one projection score per row. *)
Theorem pipeline_ranks_the_complete_countries (military_strength : CountryTable)
  (defense_budget : BudgetTable) (target_year : Z) :
  let df_clean := dropna (map (coerce_record parse_numeric) military_strength) in
  let run := snd (pipeline parse_numeric sqrt military_strength
                           defense_budget target_year) in
  (df_clean <> [] <-> exists ranking, run = Ok ranking)
  /\ forall ranking, run = Ok ranking ->
       Permutation (map (fun r => sr_country (base r)) (rows ranking))
                   (map country df_clean)
       /\ option_map (@List.length _) (projection_score ranking)
          = Some (List.length df_clean).
Proof.
  cbv zeta. unfold pipeline. cbn [fst snd].
  destruct (snd (create_strength_score parse_numeric sqrt military_strength))
    as [strength_df|e] eqn:Hs; cbn [bind].
  - destruct (create_strength_score_returns _ _ _ _ Hs) as (X & HX & HXne & E).
    set (df_clean := dropna (map (coerce_record parse_numeric)
                                 military_strength)) in *.
    assert (Hlen : List.length (map (transform_row sqrt X) X)
                   = List.length df_clean).
    { rewrite length_map. now apply traverse_length in HX. }
    assert (Hkeys : Permutation (map sr_country strength_df)
                                (map country df_clean)).
    { rewrite E.
      eapply perm_trans; [apply Permutation_map, sort_values_desc_perm|].
      pose proof (score_rows_keys df_clean _ Hlen) as Hk.
      apply (f_equal (map fst)) in Hk. rewrite !map_map in Hk. simpl in Hk.
      assert (Hk' : map sr_country
                        (score_rows df_clean (map (transform_row sqrt X) X))
                    = map country df_clean) by exact Hk.
      rewrite Hk'. apply Permutation_refl. }
    split.
    + split; [intros _; eexists; reflexivity|].
      intros _ Hnil. apply HXne. apply traverse_length in HX.
      rewrite Hnil in HX. now destruct X.
    + intros ranking Hr. injection Hr as <-.
      destruct (analyze_growth_trajectory_columns
                  (map (coerce_record parse_numeric) military_strength)
                  strength_df defense_budget) as (Hb & _ & _).
      set (projection_df :=
             analyze_growth_trajectory
               (map (coerce_record parse_numeric) military_strength)
               strength_df defense_budget) in *.
      split.
      * eapply perm_trans.
        -- apply Permutation_map.
           exact (ranking_rows_permutation
                    {| rows := projection_df; projection_score := None |}
                    target_year).
        -- cbn [rows]. rewrite <- (map_map base sr_country), Hb. exact Hkeys.
      * etransitivity.
        -- exact (ranking_column_length
                    {| rows := projection_df; projection_score := None |}
                    target_year).
        -- cbn [rows]. f_equal. rewrite <- (length_map base), Hb.
           rewrite <- (length_map sr_country), <- (length_map country).
           now apply Permutation_length.
  - split.
    + split; [|intros [ranking Hr]; discriminate].
      intros Hne. exfalso.
      unfold create_strength_score in Hs. cbn [snd] in Hs.
      destruct (to_matrix_clean parse_numeric military_strength) as [X HX].
      rewrite HX in Hs. cbn [bind] in Hs.
      destruct X as [|x X]; [|discriminate].
      apply traverse_length in HX.
      destruct (dropna (map (coerce_record parse_numeric) military_strength));
        [congruence | discriminate].
    + intros ranking Hr. discriminate.
Qed.

End DriverFacts.

(** ** Sorting in ascending order *)

Section SortingAscendingFacts.
Context {A : Type} (key : A -> option Q).

Lemma key_leb_total (a b : option Q) :
  key_leb a b = false -> key_leb b a = true.
Proof.
  destruct a as [x|], b as [y|]; simpl; try reflexivity; try discriminate.
  intros H. apply Qle_bool_iff.
  destruct (Qlt_le_dec y x) as [Hlt|Hle].
  - now apply Qlt_le_weak.
  - apply Qle_bool_iff in Hle. congruence.
Qed.

Lemma insert_asc_perm (x : A) (l : list A) :
  Permutation (insert_asc key x l) (x :: l).
Proof.
  induction l as [|y l IH]; simpl.
  - apply Permutation_refl.
  - destruct (key_leb (key x) (key y)).
    + apply Permutation_refl.
    + eapply perm_trans; [apply perm_skip, IH | apply perm_swap].
Qed.

Lemma sort_values_asc_perm (l : list A) :
  Permutation (sort_values_asc key l) l.
Proof.
  induction l as [|x l IH]; simpl.
  - apply perm_nil.
  - eapply perm_trans; [apply insert_asc_perm | now apply perm_skip].
Qed.

Lemma insert_asc_sorted (x : A) (l : list A) :
  Sorted (fun a b => key_leb (key a) (key b) = true) l ->
  Sorted (fun a b => key_leb (key a) (key b) = true) (insert_asc key x l).
Proof.
  induction l as [|y l IH]; simpl; intros Hs.
  - repeat constructor.
  - destruct (key_leb (key x) (key y)) eqn:E.
    + constructor; [assumption | now constructor].
    + inversion Hs as [|? ? Hs' Hhd]; subst.
      constructor; [now apply IH |].
      apply key_leb_total in E.
      destruct l as [|z l]; simpl.
      * now constructor.
      * destruct (key_leb (key x) (key z)); constructor; trivial.
        now inversion Hhd.
Qed.

Lemma sort_values_asc_sorted (l : list A) :
  Sorted (fun a b => key_leb (key a) (key b) = true) (sort_values_asc key l).
Proof.
  induction l as [|x l IH]; simpl.
  - constructor.
  - now apply insert_asc_sorted.
Qed.

End SortingAscendingFacts.

(** ** The rank comparison *)

Lemma map_fst_combine_same_length {A B : Type} (l : list A) (l' : list B) :
  List.length l = List.length l' -> map fst (combine l l') = l.
Proof.
  revert l'. induction l as [|x l IH]; intros [|y l']; simpl;
    try discriminate; trivial.
  intros E. injection E as E. now rewrite IH.
Qed.

Lemma rank_dict_keys (names : list string) :
  map fst (rank_dict names) = firstn 15 names.
Proof.
  unfold rank_dict. apply map_fst_combine_same_length.
  now rewrite length_map, length_seq.
Qed.

Lemma rank_dict_values (names : list string) (k : string) (v : Z) :
  In (k, v) (rank_dict names) -> (1 <= v <= 15)%Z.
Proof.
  unfold rank_dict. intros H. apply in_combine_r in H.
  apply in_map_iff in H as (idx & <- & Hidx). apply in_seq in Hidx.
  pose proof (firstn_le_length 15 names). lia.
Qed.

(** A rank read from the dict is that of an entry, or the default. *)
Lemma rank_get_cases (ranks : list (string * Z)) (c : string) :
  (In c (map fst ranks) /\ In (c, rank_get ranks c) ranks)
  \/ (~ In c (map fst ranks) /\ rank_get ranks c = 20%Z).
Proof.
  unfold rank_get.
  destruct (find _ (rev ranks)) as [[k v]|] eqn:E.
  - left. apply find_some in E as [Hin Hk]. simpl in Hk.
    apply String.eqb_eq in Hk. subst k. apply In_rev in Hin.
    split; trivial. now apply (in_map fst) in Hin.
  - right. split; trivial. intros Hin.
    apply in_map_iff in Hin as ([k v] & Hk & Hkv). simpl in Hk. subst k.
    assert (Hf : String.eqb (fst (c, v)) c = false).
    { apply (find_none _ _ E (c, v)). now apply In_rev in Hkv. }
    simpl in Hf. rewrite String.eqb_refl in Hf. discriminate.
Qed.

Lemma rank_get_range (names : list string) (c : string) :
  (In c (firstn 15 names) /\ (1 <= rank_get (rank_dict names) c <= 15)%Z)
  \/ (~ In c (firstn 15 names) /\ rank_get (rank_dict names) c = 20%Z).
Proof.
  destruct (rank_get_cases (rank_dict names) c) as [[Hk Hv]|[Hk Hv]];
    rewrite rank_dict_keys in Hk; [left | right]; split; trivial.
  eapply rank_dict_values, Hv.
Qed.

Lemma filter_keeps_all {A : Type} (f : A -> bool) (l : list A) :
  (forall a, In a l -> f a = true) -> filter f l = l.
Proof.
  induction l as [|x l IH]; simpl; intros H; trivial.
  rewrite (H x) by now left. f_equal. apply IH.
  intros a Ha. apply H. now right.
Qed.

Lemma all_countries_spec (current_names future_names : list string)
  (c : string) :
  In c (all_countries (rank_dict current_names) (rank_dict future_names))
  <-> In c (firstn 15 current_names) \/ In c (firstn 15 future_names).
Proof.
  unfold all_countries. rewrite nodup_In, in_app_iff, !rank_dict_keys.
  reflexivity.
Qed.

Lemma vis_data_unfiltered (current_names future_names : list string) :
  vis_data (rank_dict current_names) (rank_dict future_names)
  = map (vis_row (rank_dict current_names) (rank_dict future_names))
        (all_countries (rank_dict current_names) (rank_dict future_names)).
Proof.
  unfold vis_data. apply filter_keeps_all.
  intros v Hv. apply in_map_iff in Hv as (c & <- & Hc).
  apply all_countries_spec in Hc. simpl. apply orb_true_iff.
  destruct Hc as [Hc|Hc]; [left | right]; apply Z.leb_le.
  - destruct (rank_get_range current_names c) as [[_ H]|[H _]];
      [lia | contradiction].
  - destruct (rank_get_range future_names c) as [[_ H]|[H _]];
      [lia | contradiction].
Qed.

(** X9.  The test [current_rank <= 15 or future_rank <= 15] of the rank
    comparison never drops a country: the table has exactly one row for
    each country that is among the first 15 of the current or of the
    predicted order.  A rank in the table is a position 1..15 of that
    order, or the default 20 for a country that is not among its first
    15, and [Rank Change] is the current rank minus the predicted one. *)
Theorem rank_table_has_both_top15 (current_names future_names : list string) :
  let vis := vis_data (rank_dict current_names) (rank_dict future_names) in
  NoDup (map vis_country vis)
  /\ (forall c, In c (map vis_country vis)
                <-> In c (firstn 15 current_names)
                    \/ In c (firstn 15 future_names))
  /\ Forall (fun v =>
               ((In (vis_country v) (firstn 15 current_names)
                 /\ (1 <= current_rank v <= 15)%Z)
                \/ (~ In (vis_country v) (firstn 15 current_names)
                    /\ current_rank v = 20%Z))
               /\ ((In (vis_country v) (firstn 15 future_names)
                    /\ (1 <= predicted_rank v <= 15)%Z)
                   \/ (~ In (vis_country v) (firstn 15 future_names)
                       /\ predicted_rank v = 20%Z))
               /\ rank_change v = (current_rank v - predicted_rank v)%Z)
            vis.
Proof.
  cbv zeta. rewrite vis_data_unfiltered, map_map. simpl. rewrite map_id.
  split; [apply NoDup_nodup|]. split; [apply all_countries_spec|].
  apply Forall_forall. intros v Hv.
  apply in_map_iff in Hv as (c & <- & _). simpl.
  split; [apply rank_get_range|]. split; [apply rank_get_range | reflexivity].
Qed.

Lemma nth_error_combine {A B : Type} (l : list A) (l' : list B) (i : nat)
  (a : A) (b : B) :
  nth_error l i = Some a -> nth_error l' i = Some b ->
  nth_error (combine l l') i = Some (a, b).
Proof.
  revert l l'. induction i as [|i IH]; intros [|x l] [|y l']; simpl;
    try discriminate.
  - intros E1 E2. now injection E1 as <-; injection E2 as <-.
  - apply IH.
Qed.

Lemma NoDup_keys_value {A : Type} (d : list (string * A)) (k : string)
  (v v' : A) :
  NoDup (map fst d) -> In (k, v) d -> In (k, v') d -> v = v'.
Proof.
  induction d as [|[k0 v0] d IH]; simpl; [contradiction|].
  intros Hnd H1 H2. inversion Hnd as [|? ? Hnot Hnd']; subst.
  destruct H1 as [E1|H1], H2 as [E2|H2].
  - congruence.
  - injection E1 as -> ->. exfalso. apply Hnot.
    now apply (in_map fst) in H2.
  - injection E2 as -> ->. exfalso. apply Hnot.
    now apply (in_map fst) in H1.
  - now apply IH.
Qed.

Lemma rank_get_at_position (names : list string) (i : nat) (c : string) :
  NoDup (firstn 15 names) ->
  nth_error names i = Some c ->
  (i < 15)%nat ->
  rank_get (rank_dict names) c = (Z.of_nat i + 1)%Z.
Proof.
  intros Hnd Hi Hlt.
  assert (Htop : nth_error (firstn 15 names) i = Some c).
  { rewrite nth_error_firstn.
    destruct (Nat.ltb_spec i 15); [exact Hi | lia]. }
  assert (Hlen : (i < List.length (firstn 15 names))%nat).
  { apply nth_error_Some. rewrite Htop. discriminate. }
  assert (Hin : In (c, (Z.of_nat i + 1)%Z) (rank_dict names)).
  { unfold rank_dict. eapply nth_error_In.
    apply nth_error_combine; [exact Htop|].
    rewrite nth_error_map, nth_error_seq.
    destruct (Nat.ltb_spec i (List.length (firstn 15 names))); [|lia].
    reflexivity. }
  destruct (rank_get_cases (rank_dict names) c) as [[_ Hv]|[Hk _]].
  - eapply NoDup_keys_value; [|exact Hv|exact Hin].
    now rewrite rank_dict_keys.
  - exfalso. apply Hk. now apply (in_map fst) in Hin.
Qed.

(** X10.  When the first 15 countries of an order are distinct, the rank
    of the country at (0-based) position [i < 15] is [i + 1]. *)
Theorem rank_is_position (names : list string) (i : nat) (c : string) :
  NoDup (firstn 15 names) ->
  nth_error names i = Some c ->
  (i < 15)%nat ->
  rank_get (rank_dict names) c = (Z.of_nat i + 1)%Z.
Proof. apply rank_get_at_position. Qed.

Lemma rank_is_position_witness :
  rank_get (rank_dict ["A"; "B"; "C"]) "B" = 2%Z.
Proof.
  apply (rank_is_position ["A"; "B"; "C"] 1 "B"); try reflexivity.
  - repeat constructor; simpl; intuition discriminate.
  - lia.
Defined.

Lemma nodup_nil_inv (l : list string) : nodup string_dec l = [] -> l = [].
Proof.
  destruct l as [|x l]; trivial. intros H.
  assert (Hin : In x (nodup string_dec (x :: l)))
    by (apply nodup_In; now left).
  rewrite H in Hin. contradiction.
Qed.

Lemma firstn_15_nil_inv {A : Type} (l : list A) : firstn 15 l = [] -> l = [].
Proof. destruct l; [trivial | discriminate]. Qed.

Lemma Sorted_by_predicted_rank (l : list VisRow) :
  Sorted (fun a b =>
            key_leb (Some (inject_Z (predicted_rank a)))
                    (Some (inject_Z (predicted_rank b))) = true) l ->
  Sorted (fun a b => (predicted_rank a <= predicted_rank b)%Z) l.
Proof.
  induction 1 as [|a l _ IH Hhd]; constructor; trivial.
  destruct Hhd as [|b l Hab]; constructor.
  simpl in Hab. apply Qle_bool_iff in Hab. now rewrite Zle_Qle.
Qed.

(** X11.  The sorted rank table cannot be built from two empty orders
    ([sort_values] has no column to sort by and raises), and from those
    only; otherwise it holds the rows of [vis_data] by increasing
    predicted rank. *)
Theorem rank_changes_sorted_or_raises (current_names future_names : list string) :
  (rank_changes current_names future_names = None
   <-> current_names = [] /\ future_names = [])
  /\ forall vis_df,
       rank_changes current_names future_names = Some vis_df ->
       Permutation vis_df
                   (vis_data (rank_dict current_names)
                             (rank_dict future_names))
       /\ Sorted (fun a b => (predicted_rank a <= predicted_rank b)%Z) vis_df.
Proof.
  unfold rank_changes.
  destruct (vis_data (rank_dict current_names) (rank_dict future_names))
    as [|v vs] eqn:E.
  - split.
    + split; [intros _ | reflexivity].
      rewrite vis_data_unfiltered in E. apply map_eq_nil in E.
      unfold all_countries in E. apply nodup_nil_inv in E.
      apply app_eq_nil in E as [E1 E2]. rewrite rank_dict_keys in E1, E2.
      split; now apply firstn_15_nil_inv.
    + intros vis_df H. discriminate.
  - split.
    + split; [discriminate|]. intros [-> ->]. discriminate.
    + intros vis_df H. injection H as <-. split.
      * exact (sort_values_asc_perm _ (v :: vs)).
      * apply Sorted_by_predicted_rank.
        exact (sort_values_asc_sorted _ (v :: vs)).
Qed.

(** ** Rank changes over a whole ranking *)

Lemma Zsum_perm (l l' : list Z) : Permutation l l' -> Zsum l = Zsum l'.
Proof.
  induction 1 as [|x l l' _ IH|x y l|l l' l'' _ IH1 _ IH2]; simpl; lia.
Qed.

Lemma Zsum_map_minus {A : Type} (f g : A -> Z) (l : list A) :
  Zsum (map (fun a => f a - g a)%Z l)
  = (Zsum (map f l) - Zsum (map g l))%Z.
Proof. induction l as [|a l IH]; simpl; lia. Qed.

Lemma map_by_position {A B : Type} (f : A -> B) (l : list A) :
  forall g : nat -> B,
    (forall i c, nth_error l i = Some c -> f c = g i) ->
    map f l = map g (seq 0 (List.length l)).
Proof.
  induction l as [|x l IH]; intros g H; simpl; trivial.
  rewrite (H O x eq_refl). f_equal.
  rewrite <- seq_shift, map_map. apply IH.
  intros i c Hi. apply (H (S i) c Hi).
Qed.

Lemma ranks_of_whole_order (names : list string) :
  NoDup names -> (List.length names <= 15)%nat ->
  map (rank_get (rank_dict names)) names
  = map (fun i => (Z.of_nat i + 1)%Z) (seq 0 (List.length names)).
Proof.
  intros Hnd Hlen. apply map_by_position. intros i c Hi.
  apply rank_get_at_position; trivial.
  - now rewrite firstn_all2.
  - assert (i < List.length names)%nat
      by (apply nth_error_Some; rewrite Hi; discriminate).
    lia.
Qed.

(** X12.  When the predicted order is a rearrangement of the current
    order, of at most 15 countries with distinct names, no rank of the
    table is the default 20: both ranks of every row are positions between
    1 and the number of countries, and the rank changes add up to 0. *)
Theorem rank_changes_cancel (current_names future_names : list string) :
  NoDup current_names ->
  Permutation current_names future_names ->
  (List.length current_names <= 15)%nat ->
  let vis := vis_data (rank_dict current_names) (rank_dict future_names) in
  Permutation (map vis_country vis) current_names
  /\ Forall (fun v =>
               (1 <= current_rank v <= Z.of_nat (List.length current_names))%Z
               /\ (1 <= predicted_rank v
                   <= Z.of_nat (List.length current_names))%Z)
            vis
  /\ Zsum (map rank_change vis) = 0%Z.
Proof.
  intros Hnd Hperm Hlen vis.
  assert (Hnd' : NoDup future_names) by (eapply Permutation_NoDup; eassumption).
  assert (Hlen' : List.length future_names = List.length current_names)
    by (symmetry; now apply Permutation_length).
  set (all := all_countries (rank_dict current_names)
                            (rank_dict future_names)).
  assert (Hall : Permutation all current_names).
  { apply NoDup_Permutation; trivial; [apply NoDup_nodup|].
    intros c. unfold all. rewrite all_countries_spec, !firstn_all2 by lia.
    split; [|now left]. intros [H|H]; trivial.
    eapply Permutation_in; [apply Permutation_sym|]; eassumption. }
  assert (Hvis : vis = map (vis_row (rank_dict current_names)
                                    (rank_dict future_names)) all)
    by apply vis_data_unfiltered.
  assert (Hrange : forall names c,
             NoDup names -> (List.length names <= 15)%nat -> In c names ->
             (1 <= rank_get (rank_dict names) c
              <= Z.of_nat (List.length names))%Z).
  { intros names c Hn Hl Hc.
    apply In_nth_error in Hc as [i Hi].
    assert (i < List.length names)%nat
      by (apply nth_error_Some; rewrite Hi; discriminate).
    rewrite (rank_get_at_position names i c); trivial; try lia.
    now rewrite firstn_all2. }
  split; [|split].
  - rewrite Hvis, map_map. simpl. now rewrite map_id.
  - rewrite Hvis. apply Forall_forall. intros v Hv.
    apply in_map_iff in Hv as (c & <- & Hc). simpl.
    assert (Hcur : In c current_names)
      by (eapply Permutation_in; eassumption).
    split; [now apply Hrange|].
    rewrite <- Hlen'. apply Hrange; trivial; try lia.
    eapply Permutation_in; eassumption.
  - rewrite Hvis, map_map. simpl.
    rewrite (Zsum_map_minus (rank_get (rank_dict current_names))
                            (rank_get (rank_dict future_names))).
    rewrite (Zsum_perm _ _ (Permutation_map
                              (rank_get (rank_dict current_names)) Hall)).
    rewrite (Zsum_perm _ _ (Permutation_map
                              (rank_get (rank_dict future_names))
                              (perm_trans Hall Hperm))).
    rewrite !ranks_of_whole_order by (trivial; lia).
    rewrite Hlen'. lia.
Qed.

Lemma rank_changes_cancel_witness :
  let vis := vis_data (rank_dict ["A"; "B"; "C"]) (rank_dict ["C"; "A"; "B"]) in
  Permutation (map vis_country vis) ["A"; "B"; "C"]
  /\ Forall (fun v =>
               (1 <= current_rank v <= 3)%Z /\ (1 <= predicted_rank v <= 3)%Z)
            vis
  /\ Zsum (map rank_change vis) = 0%Z.
Proof.
  apply (rank_changes_cancel ["A"; "B"; "C"] ["C"; "A"; "B"]).
  - repeat constructor; simpl; intuition discriminate.
  - apply Permutation_sym. apply (Permutation_cons_app ["A"; "B"] []).
    apply Permutation_refl.
  - simpl. lia.
Defined.
